(** * spx::SpxQueue — a lock-protected double-ended queue

  Shallow embedding of [src/utils/spx_queue.h].

  - [Vec]      : the [std::vector<T>] member functions the class calls,
                 on [list T];
  - [Mutex]    : the guard ([std::mutex], the default [Lock] argument);
  - [prog]     : a small resumption monad in which every method is written
                 statement by statement (lock, vector call, unlock);
  - [run]      : the sequential meaning of a method on one object;
  - [HeapM]    : objects by address, for the two move operations, which
                 touch two instances and may alias;
  - [cstep]    : threads interleaving the statements of their calls on one
                 shared instance, under any schedule. *)

From stdpp Require Import base option list gmap.

Set Implicit Arguments.

(** ** std::vector<T> *)

(** A vector is the list of its elements, front first.  Each member function
  maps the contents to its result and the new contents; [None] is undefined
  behaviour (an access to an element of an empty vector).  Growth is
  unbounded: running out of memory is not part of the model. *)
Module Vec.
Section Vec.
Context {T : Type}.

Definition call (B : Type) : Type := list T -> option (B * list T).

Definition empty : call bool :=
  fun v => Some (match v with [] => true | _ :: _ => false end, v).

Definition size : call nat :=
  fun v => Some (length v, v).

Definition emplace_back (x : T) : call unit :=
  fun v => Some (tt, v ++ [x]).

Definition front : call T :=
  fun v => match v with [] => None | x :: _ => Some (x, v) end.

(** [erase(begin())] *)
Definition erase_begin : call unit :=
  fun v => match v with [] => None | _ :: r => Some (tt, r) end.

Definition back : call T :=
  fun v => match last v with None => None | Some x => Some (x, v) end.

Definition pop_back : call unit :=
  fun v => match v with [] => None | _ :: _ => Some (tt, removelast v) end.

Definition clear : call unit :=
  fun _ => Some (tt, []).

(** [dst = std::move(src)]: the destination takes over the source's
    buffer and its former elements are destroyed; the source is left
    without a buffer, hence empty.  Returns the contents of
    (destination, source). *)
Definition move_assign (dst src : list T) : list T * list T := (src, []).
End Vec.
End Vec.

(** ** The guard *)

Inductive Mutex : Set := Unlocked | Locked.

Module Mutex.
(** [lock()]: [None] while the mutex is held (the caller waits). *)
Definition lock (m : Mutex) : option Mutex :=
  match m with Unlocked => Some Locked | Locked => None end.

(** [unlock()]: [None] is undefined behaviour (the mutex is not held). *)
Definition unlock (m : Mutex) : option Mutex :=
  match m with Locked => Some Unlocked | Unlocked => None end.
End Mutex.

(** What a call does when run to its end with no other thread around: it
  returns, it waits for a guard nobody will release, or its behaviour is
  undefined. *)
Inductive outcome (S A : Type) : Type :=
| Returns (a : A) (s : S)
| Blocks
| Undefined.
Arguments Returns {S A} a s.
Arguments Blocks {S A}.
Arguments Undefined {S A}.

Section SpxQueue.
Variable T : Type.

(** ** The object *)

Record SpxQueue : Type := mkSpxQueue {
  data_ : list T;
  mutex_ : Mutex
}.

(** [SpxQueue() = default], with the member initialisers [data_{}] and
    [mutex_{}]. *)
Definition SpxQueue_new : SpxQueue := mkSpxQueue [] Unlocked.

Definition set_data (d : list T) (q : SpxQueue) : SpxQueue :=
  mkSpxQueue d (mutex_ q).
Definition set_mutex (m : Mutex) (q : SpxQueue) : SpxQueue :=
  mkSpxQueue (data_ q) m.

(** ** Method bodies, statement by statement *)

(** [Lock k] and [Unlock k] are [mutex_.lock()] and [mutex_.unlock()]
    followed by [k]; [Access upd k] is one member-function call on [data_]:
    it replaces the contents [d] by [upd d] and goes on with [k d], and is
    undefined where [upd d] is; [Ret a] returns [a]; [Fail] is what follows
    undefined behaviour. *)
Inductive prog (A : Type) : Type :=
| Ret (a : A)
| Fail
| Lock (k : prog A)
| Unlock (k : prog A)
| Access (upd : list T -> option (list T)) (k : list T -> prog A).
Arguments Ret {A} a.
Arguments Fail {A}.
Arguments Lock {A} k.
Arguments Unlock {A} k.
Arguments Access {A} upd k.

Fixpoint bind {A B} (p : prog A) (f : A -> prog B) : prog B :=
  match p with
  | Ret a => f a
  | Fail => Fail
  | Lock k => Lock (bind k f)
  | Unlock k => Unlock (bind k f)
  | Access upd k => Access upd (fun d => bind (k d) f)
  end.

(** A call of a vector member function on [data_]. *)
Definition vcall {B} (f : Vec.call B) : prog B :=
  Access (fun d => snd <$> f d)
         (fun d => match f d with Some (b, _) => Ret b | None => Fail end).

(** [std::lock_guard lock(mutex_);] at the top of a body: the guard is
    taken before the body and released when the scope is left, after the
    returned value has been built. *)
Definition lock_guard {A} (body : prog A) : prog A :=
  Lock (bind body (fun r => Unlock (Ret r))).

Notation "x <- p ;; k" := (bind p (fun x => k))
  (at level 100, p at next level, right associativity).
Notation "p ;; k" := (bind p (fun _ => k))
  (at level 100, right associativity).

Definition push (value : T) : prog unit :=
  lock_guard (vcall (Vec.emplace_back value)).

Definition pop : prog (option T) :=
  lock_guard (
    is_empty <- vcall Vec.empty ;;
    if is_empty : bool then Ret None
    else
      front <- vcall Vec.front ;;
      vcall Vec.erase_begin ;;
      Ret (Some front)).

Definition steal : prog (option T) :=
  lock_guard (
    is_empty <- vcall Vec.empty ;;
    if is_empty : bool then Ret None
    else
      back <- vcall Vec.back ;;
      vcall Vec.pop_back ;;
      Ret (Some back)).

Definition empty : prog bool :=
  lock_guard (is_empty <- vcall Vec.empty ;; Ret is_empty).

Definition size : prog nat :=
  lock_guard (sz <- vcall Vec.size ;; Ret sz).

Definition clear : prog unit :=
  lock_guard (vcall Vec.clear).

(** ** One caller, no other thread *)

Fixpoint run {A} (p : prog A) (q : SpxQueue) : outcome SpxQueue A :=
  match p with
  | Ret a => Returns a q
  | Fail => Undefined
  | Lock k =>
      match Mutex.lock (mutex_ q) with
      | Some m => run k (set_mutex m q)
      | None => Blocks
      end
  | Unlock k =>
      match Mutex.unlock (mutex_ q) with
      | Some m => run k (set_mutex m q)
      | None => Undefined
      end
  | Access upd k =>
      match upd (data_ q) with
      | Some d => run (k (data_ q)) (set_data d q)
      | None => Undefined
      end
  end.

(** Calls in sequence. *)
Fixpoint push_all (vs : list T) : prog unit :=
  match vs with
  | [] => Ret tt
  | v :: vs => push v ;; push_all vs
  end.

Fixpoint times {A} (n : nat) (m : prog A) : prog (list A) :=
  match n with
  | 0 => Ret []
  | S n => r <- m ;; rs <- times n m ;; Ret (r :: rs)
  end.

(** A consumer takes from the front ([pop]) or from the back ([steal]). *)
Inductive side : Set := Front | Back.

Definition take_from (e : side) : prog (option T) :=
  match e with Front => pop | Back => steal end.

Fixpoint takes (es : list side) : prog (list (side * option T)) :=
  match es with
  | [] => Ret []
  | e :: es => r <- take_from e ;; rs <- takes es ;; Ret ((e, r) :: rs)
  end.

(** The values delivered at one end, in the order of the calls. *)
Fixpoint delivered (e : side) (rs : list (side * option T)) : list T :=
  match rs with
  | [] => []
  | (Front, Some x) :: rs =>
      match e with Front => x :: delivered e rs | Back => delivered e rs end
  | (Back, Some x) :: rs =>
      match e with Back => x :: delivered e rs | Front => delivered e rs end
  | (_, None) :: rs => delivered e rs
  end.

(** ** The six operations as calls *)

Inductive opcall : Type :=
| CPush (value : T)
| CPop
| CSteal
| CEmpty
| CSize
| CClear.

Inductive retval : Type :=
| RVoid
| ROpt (o : option T)
| RBool (b : bool)
| RSize (n : nat).

Definition method (c : opcall) : prog retval :=
  match c with
  | CPush v => push v ;; Ret RVoid
  | CPop => r <- pop ;; Ret (ROpt r)
  | CSteal => r <- steal ;; Ret (ROpt r)
  | CEmpty => b <- empty ;; Ret (RBool b)
  | CSize => n <- size ;; Ret (RSize n)
  | CClear => clear ;; Ret RVoid
  end.

Fixpoint calls (cs : list opcall) : prog (list retval) :=
  match cs with
  | [] => Ret []
  | c :: cs => r <- method c ;; rs <- calls cs ;; Ret (r :: rs)
  end.

(** The locking discipline of a body: the guard is taken first, [data_]
    is touched only before the guard is released, and nothing but the
    return follows the release. *)
Definition wl_after {A} (p : prog A) : Prop :=
  match p with Ret _ => True | _ => False end.

Fixpoint wl_inside {A} (p : prog A) : Prop :=
  match p with
  | Access upd k => forall d, is_Some (upd d) -> wl_inside (k d)
  | Unlock k => wl_after k
  | _ => False
  end.

Definition well_locked {A} (p : prog A) : Prop :=
  match p with Lock k => wl_inside k | _ => False end.

(** A body made of calls on [data_] only, with [Q] true of its value. *)
Fixpoint accesses_only {A} (p : prog A) (Q : A -> Prop) : Prop :=
  match p with
  | Ret a => Q a
  | Access upd k => forall d, is_Some (upd d) -> accesses_only (k d) Q
  | _ => False
  end.

(** ** Objects by address *)

Definition HeapM (A : Type) : Type :=
  gmap nat SpxQueue -> outcome (gmap nat SpxQueue) A.

Definition hret {A} (a : A) : HeapM A := fun h => Returns a h.

Definition hseq {A B} (p : HeapM A) (k : HeapM B) : HeapM B :=
  fun h =>
    match p h with
    | Returns _ h' => k h'
    | Blocks => Blocks
    | Undefined => Undefined
    end.

(** A method call on the object at [this]; a reference to no object is
    undefined behaviour. *)
Definition on {A} (this : nat) (m : prog A) : HeapM A :=
  fun h =>
    match h !! this with
    | None => Undefined
    | Some q =>
        match run m q with
        | Returns a q' => Returns a (<[this := q']> h)
        | Blocks => Blocks
        | Undefined => Undefined
        end
    end.

(** Storage for a new object at [this], members set by their default
    initialisers. *)
Definition construct (this : nat) : HeapM unit :=
  fun h =>
    match h !! this with
    | None => Returns tt (<[this := SpxQueue_new]> h)
    | Some _ => Undefined
    end.

(** [std::lock(lock, other_lock)] on two deferred [unique_lock]s: returns
    with both guards held, and holds none while it waits.  Handed one
    mutex twice it never returns: the second acquisition waits for the
    first. *)
Definition lock_both (a b : nat) : HeapM unit :=
  fun h =>
    match h !! a, h !! b with
    | Some qa, Some qb =>
        if decide (a = b) then Blocks
        else
          match Mutex.lock (mutex_ qa), Mutex.lock (mutex_ qb) with
          | Some ma, Some mb =>
              Returns tt (<[b := set_mutex mb qb]> (<[a := set_mutex ma qa]> h))
          | _, _ => Blocks
          end
    | _, _ => Undefined
    end.

(** The destructor of a [unique_lock] that owns the guard of [a]. *)
Definition unlock_at (a : nat) : HeapM unit :=
  fun h =>
    match h !! a with
    | Some q =>
        match Mutex.unlock (mutex_ q) with
        | Some m => Returns tt (<[a := set_mutex m q]> h)
        | None => Undefined
        end
    | None => Undefined
    end.

(** [data_ = std::move(other.data_);] *)
Definition move_data (this other : nat) : HeapM unit :=
  fun h =>
    match h !! this, h !! other with
    | Some qt, Some qo =>
        let '(d, s) := Vec.move_assign (data_ qt) (data_ qo) in
        Returns tt (<[other := set_data s qo]> (<[this := set_data d qt]> h))
    | _, _ => Undefined
    end.

Notation "p >> k" := (hseq p k) (at level 60, right associativity).

(** [SpxQueue(SpxQueue&& other)] *)
Definition move_ctor (this other : nat) : HeapM unit :=
  construct this >>
  lock_both this other >>
  move_data this other >>
  unlock_at other >>
  unlock_at this.

(** [operator=(SpxQueue&& other)]; the result is the address of [*this]. *)
Definition move_assign (this other : nat) : HeapM nat :=
  (if decide (this <> other) then
     lock_both this other >>
     move_data this other >>
     unlock_at other >>
     unlock_at this
   else hret tt) >>
  hret this.

(** [operator=] as it would be without its test [this != &other]. *)
Definition move_assign_untested (this other : nat) : HeapM nat :=
  (lock_both this other >>
   move_data this other >>
   unlock_at other >>
   unlock_at this) >>
  hret this.

(** What one caller can do to a heap through the class's interface. *)
Inductive api_step : gmap nat SpxQueue -> gmap nat SpxQueue -> Prop :=
| api_construct this h h' :
    construct this h = Returns tt h' -> api_step h h'
| api_call this c r h h' :
    on this (method c) h = Returns r h' -> api_step h h'
| api_move_ctor this other h h' :
    move_ctor this other h = Returns tt h' -> api_step h h'
| api_move_assign this other a h h' :
    move_assign this other h = Returns a h' -> api_step h h'
| api_destroy this h :
    api_step h (delete this h).

Definition reachable (h : gmap nat SpxQueue) : Prop := rtc api_step ∅ h.

(** Between calls every guard is free. *)
Definition all_idle (h : gmap nat SpxQueue) : Prop :=
  forall a q, h !! a = Some q -> mutex_ q = Unlocked.

(** What a move leaves behind: [b] holds what [a] held, [a] holds nothing
    and says so, and no other object has changed. *)
Definition moved (a b : nat) (s : list T) (h h' : gmap nat SpxQueue) : Prop :=
  h' !! b = Some (mkSpxQueue s Unlocked) /\
  h' !! a = Some (mkSpxQueue [] Unlocked) /\
  on a size h' = Returns 0 h' /\
  on a empty h' = Returns true h' /\
  (forall c, c <> a -> c <> b -> h' !! c = h !! c).

(** ** Threads on one shared instance *)

(** A thread inside a call: the call, the statements still to run, whether
    it holds the guard, and the position of its critical section among all
    critical sections (a history variable, set when the guard is taken). *)
Record thread : Type := mkThread {
  t_call : opcall;
  t_code : prog retval;
  t_holds : bool;
  t_ticket : nat
}.

(** [c_lin] lists the calls in the order in which they took the guard and
    [c_rets] the values returned so far, each with the position of its
    call in [c_lin]; both are history variables. *)
Record cstate : Type := mkCState {
  c_obj : SpxQueue;
  c_pool : gmap nat thread;
  c_lin : list opcall;
  c_rets : list (nat * opcall * retval)
}.

Definition cinit (d : list T) : cstate :=
  mkCState (mkSpxQueue d Unlocked) ∅ [] [].

(** The scheduler's choices: thread [t] starts a call, or thread [t] runs
    its next statement. *)
Inductive action : Type :=
| Call (t : nat) (c : opcall)
| Step (t : nat).

(** One scheduled action; [None] is undefined behaviour.  A thread that
    finds the guard held does not move. *)
Definition cstep (a : action) (s : cstate) : option cstate :=
  match a with
  | Call t c =>
      match c_pool s !! t with
      | Some _ => Some s
      | None =>
          Some (mkCState (c_obj s)
                  (<[t := mkThread c (method c) false 0]> (c_pool s))
                  (c_lin s) (c_rets s))
      end
  | Step t =>
      match c_pool s !! t with
      | None => Some s
      | Some th =>
          match t_code th with
          | Lock k =>
              match Mutex.lock (mutex_ (c_obj s)) with
              | Some m =>
                  Some (mkCState (set_mutex m (c_obj s))
                          (<[t := mkThread (t_call th) k true (length (c_lin s))]>
                             (c_pool s))
                          (c_lin s ++ [t_call th]) (c_rets s))
              | None => Some s
              end
          | Access upd k =>
              match upd (data_ (c_obj s)) with
              | Some d =>
                  Some (mkCState (set_data d (c_obj s))
                          (<[t := mkThread (t_call th) (k (data_ (c_obj s)))
                                   (t_holds th) (t_ticket th)]> (c_pool s))
                          (c_lin s) (c_rets s))
              | None => None
              end
          | Unlock k =>
              match Mutex.unlock (mutex_ (c_obj s)) with
              | Some m =>
                  Some (mkCState (set_mutex m (c_obj s))
                          (<[t := mkThread (t_call th) k false (t_ticket th)]>
                             (c_pool s))
                          (c_lin s) (c_rets s))
              | None => None
              end
          | Ret r =>
              Some (mkCState (c_obj s) (delete t (c_pool s)) (c_lin s)
                      (c_rets s ++ [(t_ticket th, t_call th, r)]))
          | Fail => None
          end
      end
  end.

Fixpoint cexec (sched : list action) (s : cstate) : option cstate :=
  match sched with
  | [] => Some s
  | a :: sched =>
      match cstep a s with
      | Some s' => cexec sched s'
      | None => None
      end
  end.

Definition touches_data {A} (p : prog A) : bool :=
  match p with Access _ _ => true | _ => false end.

(** *** The invariant of the interleaved runs *)

(** A thread that does not hold the guard has not started its critical
    section, or has finished it and is about to return the value the
    replay gives its call. *)
Definition quiet (lin : list opcall) (rs : list retval) (th : thread) : Prop :=
  t_holds th = false /\
  (t_code th = method (t_call th) \/
   exists r, t_code th = Ret r /\
     lin !! t_ticket th = Some (t_call th) /\ rs !! t_ticket th = Some r).

(** The thread that holds the guard: left alone, the rest of its critical
    section ends in the state and with the value the replay gives. *)
Definition holding (q : SpxQueue) (lin : list opcall) (rs : list retval)
  (qe : SpxQueue) (th : thread) : Prop :=
  t_holds th = true /\ wl_inside (t_code th) /\
  lin !! t_ticket th = Some (t_call th) /\
  exists r, rs !! t_ticket th = Some r /\ run (t_code th) q = Returns r qe.

Definition others_quiet (pool : gmap nat thread) (lin : list opcall)
  (rs : list retval) (t : nat) : Prop :=
  forall t' th', t' <> t -> pool !! t' = Some th' -> quiet lin rs th'.

Definition all_quiet (pool : gmap nat thread) (lin : list opcall)
  (rs : list retval) : Prop :=
  forall t th, pool !! t = Some th -> quiet lin rs th.

(** [rs] and [qe] are the values and the final object of the calls of
    [c_lin] run one after another, by one caller, from the first state. *)
Record cinv (d0 : list T) (s : cstate) (rs : list retval) (qe : SpxQueue) :
  Prop := {
  inv_replay : run (calls (c_lin s)) (mkSpxQueue d0 Unlocked) = Returns rs qe;
  inv_end : mutex_ qe = Unlocked;
  inv_len : length rs = length (c_lin s);
  inv_guard :
    match mutex_ (c_obj s) with
    | Unlocked => c_obj s = qe /\ all_quiet (c_pool s) (c_lin s) rs
    | Locked =>
        exists t th,
          c_pool s !! t = Some th /\
          holding (c_obj s) (c_lin s) rs qe th /\
          others_quiet (c_pool s) (c_lin s) rs t
    end;
  inv_rets : forall i c r,
    (i, c, r) ∈ c_rets s -> c_lin s !! i = Some c /\ rs !! i = Some r
}.

(** A thread that is past its [lock()] and so has its place in [c_lin]. *)
Definition past_lock (th : thread) : Prop :=
  match t_code th with Lock _ => False | _ => True end.

Definition ret_tickets (s : cstate) : list nat :=
  (fun e => e.1.1) <$> c_rets s.

(** No place in [c_lin] is given out twice: not to two returns, not to two
    threads, not to a thread and a return. *)
Record tickets_ok (s : cstate) : Prop := {
  tk_rets : NoDup (ret_tickets s);
  tk_rets_bound : forall i, i ∈ ret_tickets s -> i < length (c_lin s);
  tk_bound : forall t th,
    c_pool s !! t = Some th -> past_lock th -> t_ticket th < length (c_lin s);
  tk_live : forall t th,
    c_pool s !! t = Some th -> past_lock th -> t_ticket th ∉ ret_tickets s;
  tk_inj : forall t1 t2 th1 th2,
    c_pool s !! t1 = Some th1 -> c_pool s !! t2 = Some th2 ->
    past_lock th1 -> past_lock th2 -> t_ticket th1 = t_ticket th2 -> t1 = t2
}.

(** ** What goes in and what comes out *)

(** The values a sequence of calls pushes, in the order of the calls. *)
Fixpoint pushed (cs : list opcall) : list T :=
  match cs with
  | [] => []
  | CPush v :: cs => v :: pushed cs
  | _ :: cs => pushed cs
  end.

(** The value a result hands to its caller, if any. *)
Definition got1 (r : retval) : list T :=
  match r with ROpt (Some x) => [x] | _ => [] end.

Definition got (rs : list retval) : list T := rs ≫= got1.


Definition is_clear (c : opcall) : bool :=
  match c with CClear => true | _ => false end.

(** Every place of [c_lin] belongs to a return or to a thread still inside
    its call. *)
Definition tickets_cover (s : cstate) : Prop :=
  forall i, i < length (c_lin s) ->
    i ∈ ret_tickets s \/
    exists t th, c_pool s !! t = Some th /\ past_lock th /\ t_ticket th = i.

End SpxQueue.

Arguments Ret {T A} a.
Arguments Fail {T A}.
Arguments Lock {T A} k.
Arguments Unlock {T A} k.
Arguments Access {T A} upd k.
Arguments CPop {T}.
Arguments CSteal {T}.
Arguments CEmpty {T}.
Arguments CSize {T}.
Arguments CClear {T}.
Arguments RVoid {T}.
Arguments RBool {T} b.
Arguments RSize {T} n.
Arguments Call {T} t c.
Arguments Step {T} t.

Notation "x <- p ;; k" := (bind p (fun x => k))
(at level 100, p at next level, right associativity).
Notation "p ;; k" := (bind p (fun _ => k))
(at level 100, right associativity).
Notation "p >> k" := (hseq p k) (at level 60, right associativity).

(** An object between calls: its guard is free. *)
Abbreviation idle d := (mkSpxQueue d Unlocked).

(** * Properties *)

Section Sequential.
Variable T : Type.

Implicit Types (d vs : list T) (q : SpxQueue T) (x v : T).

Lemma run_bind {A B} (p : prog T A) (f : A -> prog T B) q :
  run (bind p f) q =
  match run p q with
  | Returns a q' => run (f a) q'
  | Blocks => Blocks
  | Undefined => Undefined
  end.
Proof.
  revert q. induction p as [a| |k IH|k IH|upd k IH]; intros q; simpl; auto.
  - destruct (Mutex.lock _); auto.
  - destruct (Mutex.unlock _); auto.
  - destruct (upd _); auto.
Qed.

(** *** Each method, called while the guard is free *)

Lemma run_push v d : run (push v) (idle d) = Returns tt (idle (d ++ [v])).
Proof. reflexivity. Qed.

Lemma run_pop_nil : run (pop T) (idle []) = Returns None (idle []).
Proof. reflexivity. Qed.

Lemma run_pop_cons x d : run (pop T) (idle (x :: d)) = Returns (Some x) (idle d).
Proof. reflexivity. Qed.

Lemma run_steal_nil : run (steal T) (idle []) = Returns None (idle []).
Proof. reflexivity. Qed.

Lemma run_steal_snoc d x :
  run (steal T) (idle (d ++ [x])) = Returns (Some x) (idle d).
Proof.
  pose proof (last_snoc x d) as Hl. pose proof (removelast_last d x) as Hr.
  destruct (d ++ [x]) as [|y l] eqn:E; [by destruct d|].
  unfold steal, lock_guard, vcall, Vec.back, Vec.pop_back. simpl.
  rewrite Hl. simpl in Hr |- *. by rewrite Hr.
Qed.

Lemma run_empty d :
  run (empty T) (idle d) = Returns (bool_decide (d = [])) (idle d).
Proof. by destruct d. Qed.

Lemma run_size d : run (size T) (idle d) = Returns (length d) (idle d).
Proof. reflexivity. Qed.

Lemma run_clear d : run (clear T) (idle d) = Returns tt (idle []).
Proof. reflexivity. Qed.

Lemma idle_eta q : mutex_ q = Unlocked -> q = idle (data_ q).
Proof. destruct q; simpl; congruence. Qed.

(** *** Calls in sequence *)

Lemma run_push_all vs d :
  run (push_all vs) (idle d) = Returns tt (idle (d ++ vs)).
Proof.
  revert d. induction vs as [|v vs IH]; intros d.
  - by rewrite app_nil_r.
  - change (push_all (v :: vs)) with (push v ;; push_all vs).
    by rewrite run_bind, run_push, IH, <- app_assoc.
Qed.

Lemma run_pops vs d :
  run (times (length vs) (pop T)) (idle (vs ++ d)) =
  Returns (Some <$> vs) (idle d).
Proof.
  induction vs as [|v vs IH]; [done|].
  change (times (length (v :: vs)) (pop T))
    with (r <- pop T ;; rs <- times (length vs) (pop T) ;; Ret (r :: rs)).
  change ((v :: vs) ++ d) with (v :: (vs ++ d)).
  by rewrite run_bind, run_pop_cons, run_bind, IH.
Qed.

Lemma run_steals vs d :
  run (times (length vs) (steal T)) (idle (d ++ vs)) =
  Returns (Some <$> rev vs) (idle d).
Proof.
  induction vs as [|v vs IH] using rev_ind; [by rewrite app_nil_r|].
  rewrite length_app, Nat.add_1_r, rev_unit, app_assoc.
  change (times (S (length vs)) (steal T))
    with (r <- steal T ;; rs <- times (length vs) (steal T) ;; Ret (r :: rs)).
  by rewrite run_bind, run_steal_snoc, run_bind, IH.
Qed.

(** C1. Values pushed into a new queue and then popped come back in the
    order in which they were pushed: [n] pushes followed by [n] pops return
    [Some v1], ..., [Some vn], and leave the queue as it was built. *)
Theorem pop_returns_in_push_order vs :
  run (push_all vs ;; times (length vs) (pop T)) (SpxQueue_new T) =
  Returns (Some <$> vs) (SpxQueue_new T).
Proof.
  unfold SpxQueue_new.
  rewrite run_bind, run_push_all. simpl.
  rewrite <- (app_nil_r vs) at 2. apply run_pops.
Qed.

(** C2. Values pushed into a new queue and then stolen come back in the
    reverse of the order in which they were pushed: [n] pushes followed by
    [n] steals return [Some vn], ..., [Some v1]. *)
Theorem steal_returns_in_reverse_push_order vs :
  run (push_all vs ;; times (length vs) (steal T)) (SpxQueue_new T) =
  Returns (Some <$> rev vs) (SpxQueue_new T).
Proof.
  unfold SpxQueue_new.
  rewrite run_bind, run_push_all. apply (run_steals vs []).
Qed.

(** Any sequence of [pop]s and [steal]s on any contents: what came out at
    the front, what is left, and what came out at the back (turned around)
    make up the contents the calls started from; the calls made while
    something was there all got a value, the later ones none. *)
Lemma run_takes es d :
  exists rs d',
    run (takes T es) (idle d) = Returns rs (idle d') /\
    delivered Front rs ++ d' ++ rev (delivered Back rs) = d /\
    Forall (fun r => is_Some r.2) (take (length d) rs) /\
    Forall (fun r => r.2 = None) (drop (length d) rs) /\
    length d' = length d - length es.
Proof.
  revert d. induction es as [|e es IH]; intros d.
  { exists [], d. simpl. rewrite app_nil_r, take_nil, drop_nil, Nat.sub_0_r.
    by repeat split. }
  change (takes T (e :: es))
    with (r <- take_from T e ;; rs <- takes T es ;; Ret ((e, r) :: rs)).
  destruct e.
  - destruct d as [|x d1].
    + destruct (IH []) as (rs & d' & Hrun & Hd & Hs & Hn & Hlen).
      exists ((Front, None) :: rs), d'.
      rewrite run_bind. simpl take_from. rewrite run_pop_nil, run_bind, Hrun.
      simpl in *. rewrite drop_0 in Hn. by repeat split; auto.
    + destruct (IH d1) as (rs & d' & Hrun & Hd & Hs & Hn & Hlen).
      exists ((Front, Some x) :: rs), d'.
      rewrite run_bind. simpl take_from. rewrite run_pop_cons, run_bind, Hrun.
      simpl. rewrite Hd. repeat split; auto.
  - destruct d as [|y d2 _] using rev_ind.
    + destruct (IH []) as (rs & d' & Hrun & Hd & Hs & Hn & Hlen).
      exists ((Back, None) :: rs), d'.
      rewrite run_bind. simpl take_from. rewrite run_steal_nil, run_bind, Hrun.
      simpl in *. rewrite drop_0 in Hn. by repeat split; auto.
    + destruct (IH d2) as (rs & d' & Hrun & Hd & Hs & Hn & Hlen).
      exists ((Back, Some y) :: rs), d'.
      rewrite run_bind. simpl take_from. rewrite run_steal_snoc, run_bind, Hrun.
      rewrite length_app, Nat.add_1_r. simpl.
      rewrite !app_assoc, <- (app_assoc _ d'), Hd. repeat split; auto.
Qed.

(** C3. After [n] values are pushed into a new queue, any sequence of
    [pop]s and [steal]s long enough to drain it returns each value exactly
    once: the [pop]s return the first [k] values in the order of the pushes,
    the [steal]s return the other [n - k] in the reverse order, the first
    [n] calls all return a value and the calls after them return none. *)
Theorem mixed_takes_deliver_each_value_once vs es :
  length vs <= length es ->
  exists rs,
    run (push_all vs ;; takes T es) (SpxQueue_new T) =
      Returns rs (SpxQueue_new T) /\
    delivered Front rs = take (length (delivered Front rs)) vs /\
    delivered Back rs = rev (drop (length (delivered Front rs)) vs) /\
    delivered Front rs ++ rev (delivered Back rs) = vs /\
    Forall (fun r => is_Some r.2) (take (length vs) rs) /\
    Forall (fun r => r.2 = None) (drop (length vs) rs).
Proof.
  intros Hlen.
  destruct (run_takes es vs) as (rs & d' & Hrun & Hd & Hs & Hn & Hd').
  assert (d' = []) as -> by (apply nil_length_inv; lia).
  simpl in Hd. exists rs.
  unfold SpxQueue_new. rewrite run_bind, run_push_all. simpl.
  repeat split; auto.
  - by rewrite <- Hd, take_app_length.
  - by rewrite <- Hd, drop_app_length, rev_involutive.
Qed.

(** C4. On a queue that holds nothing (and whose guard is free, as it is
    between calls), [pop] and [steal] return no value and change nothing,
    [empty] returns true and [size] returns zero; all four calls return,
    none is undefined. *)
Theorem empty_queue_reports_absent q :
  data_ q = [] -> mutex_ q = Unlocked ->
  run (pop T) q = Returns None q /\
  run (steal T) q = Returns None q /\
  run (empty T) q = Returns true q /\
  run (size T) q = Returns 0 q.
Proof.
  intros Hd Hm. rewrite (idle_eta q Hm), Hd.
  by rewrite run_pop_nil, run_steal_nil, run_empty, run_size.
Qed.

(** C5. [push v], called while the guard is free, returns (with no value),
    puts [v] behind the elements already there, and makes [size] report
    one more than before. *)
Theorem push_adds_one_at_back q v :
  mutex_ q = Unlocked ->
  let q' := idle (data_ q ++ [v]) in
  run (push v) q = Returns tt q' /\
  run (size T) q = Returns (length (data_ q)) q /\
  run (size T) q' = Returns (S (length (data_ q))) q' /\
  run (push v ;; size T) q = Returns (S (length (data_ q))) q'.
Proof.
  destruct q as [d m]. cbn [mutex_ data_]. intros ->. cbv zeta.
  rewrite run_bind, run_push, !run_size.
  by rewrite length_app, Nat.add_1_r.
Qed.

(** C6. [clear] followed by [size] returns zero whatever the queue held;
    [clear] on a queue that holds nothing leaves it exactly as it was; and
    a second [clear] changes nothing more. *)
Theorem clear_empties_and_is_idempotent q :
  mutex_ q = Unlocked ->
  run (clear T ;; size T) q = Returns 0 (idle []) /\
  (data_ q = [] -> run (clear T) q = Returns tt q) /\
  run (clear T ;; clear T) q = run (clear T) q.
Proof.
  intros Hm. rewrite (idle_eta q Hm).
  rewrite !run_bind, !run_clear, run_size. simpl.
  split; [done|]. split; [|done]. by intros ->.
Qed.

End Sequential.

Section Heap.
Variable T : Type.
Implicit Types (h : gmap nat (SpxQueue T)) (q : SpxQueue T) (d : list T).

Lemma method_returns (c : opcall T) d :
  exists r d', run (method c) (idle d) = Returns r (idle d').
Proof.
  destruct c as [v| | | | |]; unfold method; rewrite run_bind.
  - rewrite run_push. by eexists _, _.
  - destruct d; [rewrite run_pop_nil|rewrite run_pop_cons]; by eexists _, _.
  - destruct d using rev_ind; [rewrite run_steal_nil|rewrite run_steal_snoc];
      by eexists _, _.
  - rewrite run_empty. by eexists _, _.
  - rewrite run_size. by eexists _, _.
  - rewrite run_clear. by eexists _, _.
Qed.

Lemma all_idle_insert h a q :
  all_idle h -> mutex_ q = Unlocked -> all_idle (<[a := q]> h).
Proof.
  intros Hh Hq b q'. rewrite lookup_insert. case_decide; [|by apply Hh].
  by intros [= <-].
Qed.

Lemma move_steps this other h dt ds :
  this <> other ->
  h !! this = Some (idle dt) -> h !! other = Some (idle ds) ->
  (lock_both this other >> move_data this other >>
   unlock_at other >> unlock_at this) h =
  Returns tt (<[other := idle []]> (<[this := idle ds]> h)).
Proof.
  intros Hne Ht Ho.
  unfold hseq, lock_both, move_data, unlock_at.
  rewrite Ht, Ho. destruct (decide (this = other)); [done|]. simpl.
  simplify_map_eq. f_equal. apply map_eq. intros i.
  destruct (decide (i = this)) as [->|]; [by simplify_map_eq|].
  destruct (decide (i = other)) as [->|]; by simplify_map_eq.
Qed.

Lemma move_steps_inv this other h h' :
  all_idle h ->
  (lock_both this other >> move_data this other >>
   unlock_at other >> unlock_at this) h = Returns tt h' ->
  this <> other /\
  exists dt ds,
    h !! this = Some (idle dt) /\ h !! other = Some (idle ds) /\
    h' = <[other := idle []]> (<[this := idle ds]> h).
Proof.
  intros Hh Hrun.
  destruct (h !! this) as [[dt mt]|] eqn:Ht; cycle 1.
  { unfold hseq, lock_both in Hrun. by rewrite Ht in Hrun. }
  destruct (h !! other) as [[ds ms]|] eqn:Ho; cycle 1.
  { unfold hseq, lock_both in Hrun. by rewrite Ht, Ho in Hrun. }
  destruct (decide (this = other)) as [->|Hne].
  { unfold hseq, lock_both in Hrun. rewrite Ho in Hrun.
    by destruct (decide (other = other)). }
  pose proof (Hh _ _ Ht) as Hmt. pose proof (Hh _ _ Ho) as Hms.
  simpl in Hmt, Hms. subst mt ms.
  rewrite (move_steps h Hne Ht Ho) in Hrun. injection Hrun as <-.
  split; [done|]. by exists dt, ds.
Qed.

Lemma api_step_idle h h' : api_step h h' -> all_idle h -> all_idle h'.
Proof.
  intros Hstep Hh.
  destruct Hstep as [this h h' Hc|this c r h h' Hc|this other h h' Hc
                    |this other a h h' Hc|this h].
  - unfold construct in Hc. destruct (h !! this); [done|].
    injection Hc as <-. by apply all_idle_insert.
  - unfold on in Hc. destruct (h !! this) as [[d m]|] eqn:Ht; [|done].
    pose proof (Hh _ _ Ht) as Hm. simpl in Hm. subst m.
    destruct (method_returns c d) as (r' & d' & Hrun). rewrite Hrun in Hc.
    injection Hc as _ <-. by apply all_idle_insert.
  - unfold move_ctor, hseq at 1, construct in Hc.
    destruct (h !! this) eqn:Ht; [done|].
    apply move_steps_inv in Hc as (_ & dt & ds & _ & _ & ->);
      [|by apply all_idle_insert].
    by repeat apply all_idle_insert.
  - unfold move_assign, hseq at 1 in Hc.
    destruct (decide (this <> other)).
    + destruct ((lock_both _ _ >> _) h) as [[] h1| |] eqn:Hrun in Hc; try done.
      injection Hc as _ <-.
      apply move_steps_inv in Hrun as (_ & dt & ds & _ & _ & ->); [|done].
      by repeat apply all_idle_insert.
    + by injection Hc as _ <-.
  - intros a q. rewrite lookup_delete. case_decide; [done|]. apply Hh.
Qed.

Lemma reachable_idle h : reachable h -> all_idle h.
Proof.
  unfold reachable. revert h. apply rtc_ind_r.
  - by intros a q.
  - intros h1 h2 _ Hstep IH. by eapply api_step_idle.
Qed.

Lemma on_idle_id {A} (m : prog T A) this h d r :
  h !! this = Some (idle d) -> run m (idle d) = Returns r (idle d) ->
  on this m h = Returns r h.
Proof. intros Ht Hm. unfold on. by rewrite Ht, Hm, insert_id. Qed.

Lemma moved_intro a b s h :
  a <> b -> moved a b s h (<[a := idle []]> (<[b := idle s]> h)).
Proof.
  intros Hne.
  assert ((<[a := idle []]> (<[b := idle s]> h)) !! a = Some (idle []))
    as Ha by apply lookup_insert_eq.
  repeat split.
  - by rewrite lookup_insert_ne, lookup_insert_eq.
  - done.
  - by eapply on_idle_id.
  - by eapply on_idle_id.
  - intros c Hca Hcb. by rewrite !lookup_insert_ne.
Qed.

(** C7. Moving queue [a] into queue [b], by move assignment into an
    existing [b] or by move construction of a new [b], returns, leaves in
    [b] exactly the sequence [a] held, in the same order, and leaves [a]
    empty: [size] on it returns zero and [empty] returns true. *)
Theorem move_transfers_contents_once h a b qa :
  a <> b -> h !! a = Some qa -> mutex_ qa = Unlocked ->
  (forall qb, h !! b = Some qb -> mutex_ qb = Unlocked ->
     exists h', move_assign b a h = Returns b h' /\ moved a b (data_ qa) h h') /\
  (h !! b = None ->
     exists h', move_ctor b a h = Returns tt h' /\ moved a b (data_ qa) h h').
Proof.
  intros Hne Ha Hqa. destruct qa as [s ma]. simpl in Hqa. subst ma. split.
  - intros [db mb] Hb Hqb. simpl in Hqb. subst mb.
    eexists. split; [|by apply moved_intro].
    unfold move_assign, hseq at 1.
    destruct (decide (b <> a)) as [Hba|Hba]; [|by destruct Hba; intros ->].
    by rewrite (move_steps h Hba Hb Ha).
  - intros Hb.
    exists (<[a := idle []]> (<[b := idle s]> (<[b := SpxQueue_new T]> h))).
    split.
    + unfold move_ctor, hseq at 1, construct. rewrite Hb.
      apply move_steps with (dt := []).
      * by apply not_eq_sym.
      * apply lookup_insert_eq.
      * by rewrite lookup_insert_ne.
    + rewrite insert_insert_eq. by apply moved_intro.
Qed.

(** C9. Move-assigning a queue to itself returns at once with the address
    of that same queue and changes nothing: no guard is taken and no
    element moves. *)
Theorem self_move_assign_changes_nothing h a :
  move_assign a a h = Returns a h.
Proof.
  unfold move_assign, hseq. by destruct (decide (a <> a)).
Qed.

(** It is the test [this != &other] that does it: without the test the
    same call would wait for its own guard and never return. *)
Lemma self_move_untested_blocks h a q :
  h !! a = Some q -> move_assign_untested a a h = Blocks.
Proof.
  intros Ha. unfold move_assign_untested, hseq, lock_both. rewrite Ha.
  by destruct (decide (a = a)).
Qed.

(** C10. On every object of every heap the interface can produce, [empty]
    and [size] both return, and [empty] returns true exactly when [size]
    returns zero. *)
Theorem empty_agrees_with_size h this :
  reachable h -> is_Some (h !! this) ->
  exists b n,
    on this (empty T) h = Returns b h /\
    on this (size T) h = Returns n h /\
    (b = true <-> n = 0).
Proof.
  intros Hr [[d m] Ht].
  pose proof (reachable_idle Hr _ Ht) as Hm. simpl in Hm. subst m.
  exists (bool_decide (d = [])), (length d). repeat split.
  - eapply on_idle_id; [done|apply run_empty].
  - eapply on_idle_id; [done|apply run_size].
  - intros Hb. apply bool_decide_eq_true in Hb. by subst d.
  - intros Hn. apply bool_decide_eq_true. by apply nil_length_inv.
Qed.

End Heap.

Section Threads.
Variable T : Type.
Variable d0 : list T.
Implicit Types (s : cstate T) (th : thread T) (q : SpxQueue T)
  (lin : list (opcall T)) (rs : list (retval T)).

Lemma accesses_only_vcall {A} (f : @Vec.call T A) :
  accesses_only (vcall f) (fun _ => True).
Proof.
  intros d [d' Hd]. simpl in *. by destruct (f d) as [[a d'']|].
Qed.

Lemma accesses_only_bind {A B} (p : prog T A) (k : A -> prog T B) Q R :
  accesses_only p Q -> (forall a, Q a -> accesses_only (k a) R) ->
  accesses_only (bind p k) R.
Proof.
  induction p as [a| |p IH|p IH|upd p IH]; simpl; try done.
  - intros Hq Hk. by apply Hk.
  - intros Hp Hk d Hd. apply IH; auto.
Qed.

Lemma wl_inside_guarded {A} (body : prog T A) Q :
  accesses_only body Q -> wl_inside (bind body (fun r => Unlock (Ret r))).
Proof.
  induction body as [a| |p IH|p IH|upd p IH]; simpl; try done.
  intros Hp d Hd. apply IH; auto.
Qed.

Lemma wl_inside_map {A B} (p : prog T A) (g : A -> B) :
  wl_inside p -> wl_inside (bind p (fun a => Ret (g a))).
Proof.
  induction p as [a| |p IH|p IH|upd p IH]; simpl; try done.
  - by destruct p.
  - intros Hp d Hd. apply IH; auto.
Qed.

(** Every method follows the locking discipline. *)
Lemma method_well_locked (c : opcall T) : well_locked (method c).
Proof.
  assert (forall A (body : prog T A) (g : A -> retval T),
    accesses_only body (fun _ => True) ->
    well_locked (bind (lock_guard body) (fun a => Ret (g a)))) as Hwl.
  { intros A body g Hb. simpl. eapply wl_inside_map, wl_inside_guarded, Hb. }
  destruct c as [v| | | | |]; unfold method; apply Hwl.
  - apply accesses_only_vcall.
  - eapply accesses_only_bind; [apply accesses_only_vcall|].
    intros [] _; [done|].
    eapply accesses_only_bind; [apply accesses_only_vcall|]. intros x _.
    eapply accesses_only_bind; [apply accesses_only_vcall|]. done.
  - eapply accesses_only_bind; [apply accesses_only_vcall|].
    intros [] _; [done|].
    eapply accesses_only_bind; [apply accesses_only_vcall|]. intros x _.
    eapply accesses_only_bind; [apply accesses_only_vcall|]. done.
  - eapply accesses_only_bind; [apply accesses_only_vcall|]. done.
  - eapply accesses_only_bind; [apply accesses_only_vcall|]. done.
  - apply accesses_only_vcall.
Qed.

Lemma method_starts_with_lock (c : opcall T) :
  exists k, method c = Lock k /\ wl_inside k.
Proof.
  pose proof (method_well_locked c) as Hwl.
  destruct (method c) as [a| |k|k|upd k]; try done. by exists k.
Qed.

Lemma quiet_mono lin rs lin' rs' th :
  quiet lin rs th -> quiet (lin ++ lin') (rs ++ rs') th.
Proof.
  intros [Hh [Hb|(r & Hc & Hl & Hr)]]; split; auto.
  right. exists r. auto using lookup_app_l_Some.
Qed.

Lemma run_calls_snoc lin c q1 rs q r q' :
  run (calls lin) q1 = Returns rs q ->
  run (method c) q = Returns r q' ->
  run (calls (lin ++ [c])) q1 = Returns (rs ++ [r]) q'.
Proof.
  revert q1 rs. induction lin as [|c1 lin IH]; intros q1 rs Hrun Hc.
  - injection Hrun as <- <-. simpl. by rewrite run_bind, Hc.
  - simpl in *. rewrite run_bind in *.
    destruct (run (method c1) q1) as [r1 q2| |]; try done.
    rewrite run_bind in *.
    destruct (run (calls lin) q2) as [rs2 q3| |] eqn:Hlin; try done.
    injection Hrun as <- <-. by rewrite (IH _ _ Hlin Hc).
Qed.

Lemma others_quiet_mono pool lin rs lin' rs' t :
  others_quiet pool lin rs t -> others_quiet pool (lin ++ lin') (rs ++ rs') t.
Proof. intros Hq t' th' Hne Ht'. by eapply quiet_mono, Hq. Qed.

Lemma all_quiet_others pool lin rs t :
  all_quiet pool lin rs -> others_quiet pool lin rs t.
Proof. intros Hq t' th' _. apply Hq. Qed.

Lemma others_quiet_insert_self pool lin rs t th :
  others_quiet pool lin rs t -> others_quiet (<[t := th]> pool) lin rs t.
Proof. intros Hq t' th' Hne. rewrite lookup_insert_ne by done. by apply Hq. Qed.

Lemma others_quiet_insert pool lin rs t0 t th :
  others_quiet pool lin rs t0 -> quiet lin rs th ->
  others_quiet (<[t := th]> pool) lin rs t0.
Proof.
  intros Hq Hth t' th' Hne. rewrite lookup_insert. case_decide.
  - by intros [= <-].
  - by apply Hq.
Qed.

Lemma others_quiet_delete pool lin rs t0 t :
  others_quiet pool lin rs t0 -> others_quiet (delete t pool) lin rs t0.
Proof.
  intros Hq t' th' Hne. rewrite lookup_delete. case_decide; [done|]. by apply Hq.
Qed.

Lemma all_quiet_insert pool lin rs t th :
  others_quiet pool lin rs t -> quiet lin rs th ->
  all_quiet (<[t := th]> pool) lin rs.
Proof.
  intros Hq Hth t' th'. rewrite lookup_insert. case_decide.
  - by intros [= <-].
  - by apply Hq.
Qed.

Lemma all_quiet_delete pool lin rs t :
  others_quiet pool lin rs t -> all_quiet (delete t pool) lin rs.
Proof.
  intros Hq t' th'. rewrite lookup_delete. case_decide; [done|]. by apply Hq.
Qed.

(** A thread of the pool is quiet, or it is the one holder. *)
Lemma cinv_thread s rs qe t th :
  cinv d0 s rs qe -> c_pool s !! t = Some th ->
  quiet (c_lin s) rs th \/
  (mutex_ (c_obj s) = Locked /\
   holding (c_obj s) (c_lin s) rs qe th /\
   others_quiet (c_pool s) (c_lin s) rs t).
Proof.
  intros [_ _ _ Hg _] Ht. destruct (mutex_ (c_obj s)).
  - left. by apply (proj2 Hg t).
  - destruct Hg as (t0 & th0 & Ht0 & Hh & Hq).
    destruct (decide (t = t0)) as [->|Hne].
    + right. by simplify_eq.
    + left. by apply (Hq t).
Qed.

Lemma quiet_not_holding q lin rs qe th :
  quiet lin rs th -> holding q lin rs qe th -> False.
Proof. intros [Hq _] [Hh _]. congruence. Qed.

Lemma cinv_init : cinv d0 (cinit d0) [] (idle d0).
Proof.
  split.
  - done.
  - done.
  - done.
  - simpl. split; [done|]. intros t th. by rewrite lookup_empty.
  - intros i c r Hi. by apply not_elem_of_nil in Hi.
Qed.

(** *** Each kind of step keeps the invariant *)

Lemma quiet_code_cases lin rs th :
  quiet lin rs th ->
  (exists k, t_code th = Lock k /\ method (t_call th) = Lock k /\ wl_inside k) \/
  (exists r, t_code th = Ret r /\
     lin !! t_ticket th = Some (t_call th) /\ rs !! t_ticket th = Some r).
Proof.
  intros [_ [Hc|Hc]]; [left|by right].
  destruct (method_starts_with_lock (t_call th)) as (k & Hk & Hwl).
  exists k. by rewrite Hc.
Qed.

Lemma step_call s rs qe t c :
  cinv d0 s rs qe -> c_pool s !! t = None ->
  cinv d0 (mkCState (c_obj s)
          (<[t := mkThread c (method c) false 0]> (c_pool s))
          (c_lin s) (c_rets s)) rs qe.
Proof.
  intros [Hrep Hend Hlen Hg Hrets] Ht.
  assert (quiet (c_lin s) rs (mkThread c (method c) false 0)) as Hnew.
  { split; [done|by left]. }
  split; simpl; try done.
  destruct (mutex_ (c_obj s)).
  - destruct Hg as [Hobj Hq]. split; [done|].
    by apply all_quiet_insert; [apply all_quiet_others|].
  - destruct Hg as (t0 & th0 & Ht0 & Hh & Hq). exists t0, th0.
    split; [|split; [done|by apply others_quiet_insert]].
    rewrite lookup_insert_ne; [done|]. by intros ->; simplify_eq.
Qed.

Lemma step_return s rs qe t th r :
  cinv d0 s rs qe -> c_pool s !! t = Some th -> t_code th = Ret r ->
  cinv d0 (mkCState (c_obj s) (delete t (c_pool s)) (c_lin s)
          (c_rets s ++ [(t_ticket th, t_call th, r)])) rs qe.
Proof.
  intros Hinv Ht Hcode.
  destruct (cinv_thread _ Hinv Ht) as [Hq|(_ & (_ & Hwl & _) & _)]; cycle 1.
  { by rewrite Hcode in Hwl. }
  destruct (quiet_code_cases Hq) as [(k & Hk & _)|(r' & Hr & Hl & Hrs)];
    [congruence|].
  assert (r' = r) as -> by congruence.
  destruct Hinv as [Hrep Hend Hlen Hg Hrets].
  split; simpl; try done.
  - destruct (mutex_ (c_obj s)).
    + destruct Hg as [Hobj Hall]. split; [done|].
      by apply all_quiet_delete, all_quiet_others.
    + destruct Hg as (t0 & th0 & Ht0 & Hh & Hoth). exists t0, th0.
      split; [|split; [done|by apply others_quiet_delete]].
      rewrite lookup_delete_ne; [done|]. intros ->. simplify_eq.
      by eapply quiet_not_holding.
  - intros i c r0 [Hi|Hi%list_elem_of_singleton]%elem_of_app; [by apply Hrets|].
    by simplify_eq.
Qed.

Lemma step_fail s rs qe t th :
  cinv d0 s rs qe -> c_pool s !! t = Some th -> t_code th = Fail -> False.
Proof.
  intros Hinv Ht Hcode.
  destruct (cinv_thread _ Hinv Ht) as [Hq|(_ & (_ & Hwl & _) & _)].
  - destruct (quiet_code_cases Hq) as [(k & Hk & _)|(r' & Hr & _)]; congruence.
  - by rewrite Hcode in Hwl.
Qed.

Lemma step_lock s rs qe t th k :
  cinv d0 s rs qe -> c_pool s !! t = Some th -> t_code th = Lock k ->
  mutex_ (c_obj s) = Unlocked ->
  exists rs' qe',
    cinv d0 (mkCState (set_mutex Locked (c_obj s))
            (<[t := mkThread (t_call th) k true (length (c_lin s))]> (c_pool s))
            (c_lin s ++ [t_call th]) (c_rets s)) rs' qe'.
Proof.
  intros [Hrep Hend Hlen Hg Hrets] Ht Hcode Hm.
  rewrite Hm in Hg. destruct Hg as [Hobj Hall].
  destruct (quiet_code_cases (Hall _ _ Ht))
    as [(k' & Hk' & Hmeth & Hwl)|(r & Hr & _)]; [|congruence].
  assert (k' = k) as -> by congruence.
  destruct (method_returns (t_call th) (data_ qe)) as (r & d' & Hrun).
  rewrite <- (idle_eta qe Hend) in Hrun.
  exists (rs ++ [r]), (idle d'). split; simpl.
  - by eapply run_calls_snoc.
  - done.
  - rewrite !length_app. simpl. lia.
  - eexists t, _. split; [apply lookup_insert_eq|]. split.
    + split; [done|]. split; [done|]. simpl. split.
      * by apply list_lookup_middle.
      * exists r. split; [by apply list_lookup_middle|].
        rewrite Hmeth in Hrun. simpl in Hrun. rewrite Hend in Hrun.
        by rewrite Hobj.
    + by apply others_quiet_insert_self, others_quiet_mono, all_quiet_others.
  - intros i c r0 Hi. destruct (Hrets _ _ _ Hi).
    split; by apply lookup_app_l_Some.
Qed.

Lemma step_access s rs qe t th upd k :
  cinv d0 s rs qe -> c_pool s !! t = Some th -> t_code th = Access upd k ->
  exists d,
    upd (data_ (c_obj s)) = Some d /\
    cinv d0 (mkCState (set_data d (c_obj s))
            (<[t := mkThread (t_call th) (k (data_ (c_obj s)))
                     (t_holds th) (t_ticket th)]> (c_pool s))
            (c_lin s) (c_rets s)) rs qe.
Proof.
  intros Hinv Ht Hcode.
  destruct (cinv_thread _ Hinv Ht)
    as [Hq|(Hm & (Hh & Hwl & Hl & r & Hr & Hrun) & Hoth)].
  { destruct (quiet_code_cases Hq) as [(k' & Hk' & _)|(r & Hr & _)]; congruence. }
  rewrite Hcode in Hwl, Hrun. simpl in Hwl, Hrun.
  destruct (upd (data_ (c_obj s))) as [d|] eqn:Hupd; [|done].
  exists d. split; [done|].
  destruct Hinv as [Hrep Hend Hlen _ Hrets].
  split; simpl; try done.
  rewrite Hm. eexists t, _. split; [apply lookup_insert_eq|]. split.
  - split; [done|]. simpl. split; [by apply Hwl; eexists|].
    split; [done|]. by exists r.
  - by apply others_quiet_insert_self.
Qed.

Lemma step_unlock s rs qe t th k :
  cinv d0 s rs qe -> c_pool s !! t = Some th -> t_code th = Unlock k ->
  mutex_ (c_obj s) = Locked /\
  cinv d0 (mkCState (set_mutex Unlocked (c_obj s))
          (<[t := mkThread (t_call th) k false (t_ticket th)]> (c_pool s))
          (c_lin s) (c_rets s)) rs qe.
Proof.
  intros Hinv Ht Hcode.
  destruct (cinv_thread _ Hinv Ht)
    as [Hq|(Hm & (Hh & Hwl & Hl & r & Hr & Hrun) & Hoth)].
  { destruct (quiet_code_cases Hq) as [(k' & Hk' & _)|(r & Hr & _)]; congruence. }
  split; [done|].
  rewrite Hcode in Hwl, Hrun. simpl in Hwl, Hrun. rewrite Hm in Hrun.
  destruct k as [r'| | | |]; try done. simpl in Hrun. injection Hrun as -> <-.
  destruct Hinv as [Hrep Hend Hlen _ Hrets].
  split; simpl; try done.
  split; [done|]. apply all_quiet_insert; [done|].
  split; [done|]. right. by exists r.
Qed.

Lemma cstep_cinv a s rs qe :
  cinv d0 s rs qe ->
  exists s' rs' qe', cstep a s = Some s' /\ cinv d0 s' rs' qe'.
Proof.
  intros Hinv. destruct a as [t c|t]; simpl.
  - destruct (c_pool s !! t) eqn:Ht; [by eexists _, _, _|].
    eexists _, _, _. split; [done|]. by apply step_call.
  - destruct (c_pool s !! t) as [th|] eqn:Ht; [|by eexists _, _, _].
    destruct (t_code th) as [r| |k|k|upd k] eqn:Hcode.
    + eexists _, _, _. split; [done|]. by apply step_return.
    + destruct (step_fail _ Hinv Ht Hcode).
    + destruct (mutex_ (c_obj s)) eqn:Hm; simpl.
      * destruct (step_lock _ Hinv Ht Hcode Hm) as (rs' & qe' & Hinv').
        by eexists _, _, _.
      * by eexists _, _, _.
    + destruct (step_unlock _ Hinv Ht Hcode) as [Hm Hinv']. rewrite Hm. simpl.
      by eexists _, _, _.
    + destruct (step_access _ Hinv Ht Hcode) as (d & Hd & Hinv'). rewrite Hd.
      by eexists _, _, _.
Qed.

Lemma cexec_cinv sched s rs qe :
  cinv d0 s rs qe ->
  exists s' rs' qe', cexec sched s = Some s' /\ cinv d0 s' rs' qe'.
Proof.
  revert s rs qe. induction sched as [|a sched IH]; intros s rs qe Hinv.
  - by exists s, rs, qe.
  - destruct (cstep_cinv a Hinv) as (s1 & rs1 & qe1 & Hstep & Hinv1).
    simpl. rewrite Hstep. by eapply IH.
Qed.

(** *** Places in the serial order are not shared *)

Lemma tickets_ok_init : tickets_ok (cinit d0).
Proof.
  split; unfold ret_tickets; simpl.
  - apply NoDup_nil_2.
  - intros i Hi. by apply not_elem_of_nil in Hi.
  - intros t th Ht. by rewrite lookup_empty in Ht.
  - intros t th Ht. by rewrite lookup_empty in Ht.
  - intros t1 t2 th1 th2 Ht. by rewrite lookup_empty in Ht.
Qed.

(** A thread is added or replaced, by one that has no place yet or keeps
    the place of the thread it replaces. *)
Lemma tickets_ok_insert s obj t th' :
  tickets_ok s ->
  (past_lock th' ->
   exists th, c_pool s !! t = Some th /\ past_lock th /\
              t_ticket th' = t_ticket th) ->
  tickets_ok (mkCState obj (<[t := th']> (c_pool s)) (c_lin s) (c_rets s)).
Proof.
  intros [Hnd Hrb Hb Hl Hi] Hnew.
  assert (forall t1 th1,
    (<[t := th']> (c_pool s)) !! t1 = Some th1 -> past_lock th1 ->
    exists th, c_pool s !! t1 = Some th /\ past_lock th /\
               t_ticket th1 = t_ticket th) as Hold.
  { intros t1 th1. rewrite lookup_insert. case_decide as Ht.
    - intros [= <-] Hp. subst t1. by apply Hnew.
    - intros Ht1 Hp. by exists th1. }
  split; simpl; try done.
  - intros t1 th1 Ht1 Hp. destruct (Hold _ _ Ht1 Hp) as (th & Ht & Hp' & ->).
    by eapply Hb.
  - intros t1 th1 Ht1 Hp. destruct (Hold _ _ Ht1 Hp) as (th & Ht & Hp' & ->).
    by eapply Hl.
  - intros t1 t2 th1 th2 Ht1 Ht2 Hp1 Hp2.
    destruct (Hold _ _ Ht1 Hp1) as (th3 & Ht3 & Hp3 & ->).
    destruct (Hold _ _ Ht2 Hp2) as (th4 & Ht4 & Hp4 & ->).
    by eapply Hi.
Qed.

Lemma cstep_tickets_ok a s s' :
  tickets_ok s -> cstep a s = Some s' -> tickets_ok s'.
Proof.
  intros Hok. destruct a as [t c|t]; simpl.
  - destruct (c_pool s !! t) eqn:Ht; intros [= <-]; [done|].
    apply tickets_ok_insert; [done|]. unfold past_lock. simpl.
    by destruct (method_starts_with_lock c) as (k & -> & _).
  - destruct (c_pool s !! t) as [th|] eqn:Ht; [|by intros [= <-]].
    destruct (t_code th) as [r| |k|k|upd k] eqn:Hcode.
    + (* the thread returns: its place goes to the returns *)
      intros [= <-]. destruct Hok as [Hnd Hrb Hb Hl Hi].
      assert (past_lock th) as Hp by (unfold past_lock; by rewrite Hcode).
      split; simpl; unfold ret_tickets; simpl; rewrite ?fmap_app; simpl.
      * apply NoDup_app. split; [done|]. split; [|apply NoDup_singleton].
        intros i Hin ->%list_elem_of_singleton. by eapply Hl.
      * intros i [Hin| ->%list_elem_of_singleton]%elem_of_app; [by apply Hrb|].
        by eapply Hb.
      * intros t1 th1 [Hne Ht1]%lookup_delete_Some. by eapply Hb.
      * intros t1 th1 [Hne Ht1]%lookup_delete_Some Hp1
          [Hin|Heq%list_elem_of_singleton]%elem_of_app.
        { by eapply Hl. }
        apply Hne. symmetry. by eapply Hi.
      * intros t1 t2 th1 th2 [_ Ht1]%lookup_delete_Some
          [_ Ht2]%lookup_delete_Some. by eapply Hi.
    + done.
    + (* the thread takes the guard: it gets the next place *)
      destruct (Mutex.lock _); intros [= <-]; [|done].
      destruct Hok as [Hnd Hrb Hb Hl Hi].
      assert (forall t1 th1,
        (<[t := mkThread (t_call th) k true (length (c_lin s))]> (c_pool s))
          !! t1 = Some th1 -> past_lock th1 ->
        (t1 = t /\ t_ticket th1 = length (c_lin s)) \/
        (t1 <> t /\ c_pool s !! t1 = Some th1)) as Hold.
      { intros t1 th1. rewrite lookup_insert. case_decide as Ht1.
        - intros [= <-] _. by left.
        - intros Hlk _. by right. }
      split; simpl; try done.
      * intros i Hin. rewrite length_app. specialize (Hrb _ Hin). lia.
      * intros t1 th1 Ht1 Hp. rewrite length_app. simpl.
        destruct (Hold _ _ Ht1 Hp) as [[_ ->]|[_ Ht1']]; [lia|].
        specialize (Hb _ _ Ht1' Hp). lia.
      * intros t1 th1 Ht1 Hp Hin.
        destruct (Hold _ _ Ht1 Hp) as [[_ Heq]|[_ Ht1']].
        { rewrite Heq in Hin. specialize (Hrb _ Hin). lia. }
        by eapply Hl.
      * intros t1 t2 th1 th2 Ht1 Ht2 Hp1 Hp2 Heq.
        destruct (Hold _ _ Ht1 Hp1) as [[-> Hk1]|[Hn1 Ht1']],
                 (Hold _ _ Ht2 Hp2) as [[-> Hk2]|[Hn2 Ht2']]; try done.
        { specialize (Hb _ _ Ht2' Hp2). lia. }
        { specialize (Hb _ _ Ht1' Hp1). lia. }
        by eapply Hi.
    + destruct (Mutex.unlock _); intros [= <-].
      apply tickets_ok_insert; [done|]. intros _. exists th.
      unfold past_lock. by rewrite Hcode.
    + destruct (upd _); intros [= <-].
      apply tickets_ok_insert; [done|]. intros _. exists th.
      unfold past_lock. by rewrite Hcode.
Qed.

Lemma cexec_tickets_ok sched s s' :
  tickets_ok s -> cexec sched s = Some s' -> tickets_ok s'.
Proof.
  revert s. induction sched as [|a sched IH]; intros s Hok; simpl.
  - by intros [= <-].
  - destruct (cstep a s) as [s1|] eqn:Hstep; [|done].
    apply IH. by eapply cstep_tickets_ok.
Qed.

(** C8. Whatever the scheduler does with any number of threads calling
    [push], [pop], [steal], [empty], [size] and [clear] on one instance:
    no step is undefined; at most one thread is inside a critical section
    (holds the guard), and the guard is held exactly then; a thread about
    to touch [data_] is that thread; and every value returned is the value
    its call returns when all the calls are run one at a time, whole, in
    the order in which they took the guard, which also gives the object's
    state whenever the guard is free; no two returns answer the same call
    of that order. *)
Theorem guard_serialises_calls (sched : list (action T)) :
  exists s rs qe,
    cexec sched (cinit d0) = Some s /\
    (forall t1 t2 th1 th2,
       c_pool s !! t1 = Some th1 -> c_pool s !! t2 = Some th2 ->
       t_holds th1 = true -> t_holds th2 = true -> t1 = t2) /\
    (mutex_ (c_obj s) = Locked <->
     exists t th, c_pool s !! t = Some th /\ t_holds th = true) /\
    (forall t th,
       c_pool s !! t = Some th -> touches_data (t_code th) = true ->
       t_holds th = true) /\
    run (calls (c_lin s)) (idle d0) = Returns rs qe /\
    (mutex_ (c_obj s) = Unlocked -> c_obj s = qe) /\
    (forall i c r,
       (i, c, r) ∈ c_rets s -> c_lin s !! i = Some c /\ rs !! i = Some r) /\
    NoDup (ret_tickets s).
Proof.
  destruct (cexec_cinv sched cinv_init) as (s & rs & qe & Hexec & Hinv).
  pose proof (cexec_tickets_ok _ tickets_ok_init Hexec) as Hok.
  exists s, rs, qe. split; [done|].
  assert (forall t th, c_pool s !! t = Some th -> t_holds th = true ->
            mutex_ (c_obj s) = Locked /\
            others_quiet (c_pool s) (c_lin s) rs t) as Hholder.
  { intros t th Ht Hh.
    destruct (cinv_thread _ Hinv Ht) as [[Hq _]|(Hm & _ & Hoth)]; [congruence|done]. }
  repeat split.
  - intros t1 t2 th1 th2 Ht1 Ht2 Hh1 Hh2.
    destruct (decide (t1 = t2)) as [|Hne]; [done|].
    destruct (Hholder _ _ Ht1 Hh1) as [_ Hoth].
    destruct (Hoth _ _ (not_eq_sym Hne) Ht2) as [Hq _]. congruence.
  - intros Hm. destruct Hinv as [_ _ _ Hg _]. rewrite Hm in Hg.
    destruct Hg as (t & th & Ht & [Hh _] & _). by exists t, th.
  - intros (t & th & Ht & Hh). by apply (Hholder _ _ Ht Hh).
  - intros t th Ht Hacc.
    destruct (cinv_thread _ Hinv Ht) as [Hq|(_ & [Hh _] & _)]; [|done].
    destruct (quiet_code_cases Hq) as [(k & Hk & _)|(r & Hr & _)];
      by rewrite ?Hk, ?Hr in Hacc.
  - by destruct Hinv.
  - intros Hm. destruct Hinv as [_ _ _ Hg _]. rewrite Hm in Hg. by destruct Hg.
  - by eapply (inv_rets Hinv).
  - by eapply (inv_rets Hinv).
  - by destruct Hok.
Qed.

End Threads.

(** * Further properties of the methods *)

Section Further.
Variable T : Type.
Implicit Types (d : list T) (v x : T).

(** What each method returns and leaves behind, guard free before and
    after. *)
Lemma run_method_cases (c : opcall T) d :
  exists r d',
    run (method c) (idle d) = Returns r (idle d') /\
    match c with
    | CPush v => r = RVoid /\ d' = d ++ [v]
    | CPop =>
        (d = [] /\ r = ROpt None /\ d' = []) \/
        (exists x, d = x :: d' /\ r = ROpt (Some x))
    | CSteal =>
        (d = [] /\ r = ROpt None /\ d' = []) \/
        (exists x, d = d' ++ [x] /\ r = ROpt (Some x))
    | CEmpty => r = RBool (bool_decide (d = [])) /\ d' = d
    | CSize => r = RSize (length d) /\ d' = d
    | CClear => r = RVoid /\ d' = []
    end.
Proof.
  destruct c as [v| | | | |]; unfold method; rewrite run_bind.
  - rewrite run_push. by eexists _, _.
  - destruct d as [|x d1]; [rewrite run_pop_nil|rewrite run_pop_cons];
      eexists _, _; (split; [done|]); [by left|right; by exists x].
  - destruct d as [|x d1 _] using rev_ind;
      [rewrite run_steal_nil|rewrite run_steal_snoc];
      eexists _, _; (split; [done|]); [by left|right; by exists x].
  - rewrite run_empty. by eexists _, _.
  - rewrite run_size. by eexists _, _.
  - rewrite run_clear. by eexists _, _.
Qed.


(** X2. Called with the guard free, [pop] and [steal] return, and return
    no value only when the queue holds nothing; otherwise [pop] returns the
    first value and [steal] the last, exactly that value is gone, and the
    others keep their order. *)
Theorem take_is_absent_only_when_empty (e : side) d :
  exists r d',
    run (take_from T e) (idle d) = Returns r (idle d') /\
    (r = None <-> d = []) /\
    d = match e with
        | Front => option_list r ++ d'
        | Back => d' ++ option_list r
        end /\
    length d' = length d - length (option_list r).
Proof.
  destruct e; unfold take_from.
  - destruct d as [|x d1]; [rewrite run_pop_nil|rewrite run_pop_cons];
      eexists _, _; (split; [done|]); simpl; repeat split; try done; lia.
  - destruct d as [|x d1 _] using rev_ind;
      [rewrite run_steal_nil|rewrite run_steal_snoc];
      eexists _, _; (split; [done|]); simpl; repeat split; try done.
    + by destruct d1.
    + rewrite length_app. simpl. lia.
Qed.

(** X3. [push v] followed by [steal] gives [v] back and leaves the queue
    exactly as it was before the push; [push v] followed by [pop] returns
    the oldest value instead, which is [v] only if the queue was empty. *)
Theorem push_then_take_back v d :
  run (push v ;; steal T) (idle d) = Returns (Some v) (idle d) /\
  run (push v ;; pop T) (idle d) =
    Returns (head (d ++ [v])) (idle (tail (d ++ [v]))).
Proof.
  rewrite !run_bind, run_push, run_steal_snoc. split; [done|].
  destruct d as [|x d1]; simpl app; apply run_pop_cons.
Qed.

(** X4. In a program with one caller nothing ever waits and nothing is
    undefined: on every heap the interface can produce, every method call on
    a live object returns, and so do move assignment between live objects
    (the same one or two) and move construction of a new object from a live
    one; the heap they leave is again one the interface can produce. *)
Theorem single_caller_never_waits (h : gmap nat (SpxQueue T)) :
  reachable h ->
  (forall this c, is_Some (h !! this) ->
     exists r h', on this (method c) h = Returns r h' /\ reachable h') /\
  (forall this other, is_Some (h !! this) -> is_Some (h !! other) ->
     exists h', move_assign this other h = Returns this h' /\ reachable h') /\
  (forall this other, h !! this = None -> is_Some (h !! other) ->
     exists h', move_ctor this other h = Returns tt h' /\ reachable h').
Proof.
  intros Hr. pose proof (reachable_idle Hr) as Hidle.
  assert (forall a, is_Some (h !! a) -> exists d, h !! a = Some (idle d)) as Hlive.
  { intros a [[d m] Ha]. pose proof (Hidle _ _ Ha) as Hm. simpl in Hm.
    subst m. by exists d. }
  split; [|split].
  - intros this c [d Ht]%Hlive.
    destruct (run_method_cases c d) as (r & d' & Hrun & _).
    assert (on this (method c) h = Returns r (<[this := idle d']> h)) as Hon.
    { unfold on. by rewrite Ht, Hrun. }
    eexists _, _. split; [done|].
    eapply rtc_r; [done|]. by eapply api_call.
  - intros this other [dt Ht]%Hlive [ds Ho]%Hlive.
    assert (exists h', move_assign this other h = Returns this h') as [h' Hm].
    { unfold move_assign, hseq at 1.
      destruct (decide (this <> other)) as [Hne|_]; [|by eexists].
      rewrite (move_steps h Hne Ht Ho). by eexists. }
    exists h'. split; [done|]. eapply rtc_r; [done|]. by eapply api_move_assign.
  - intros this other Ht [ds Ho]%Hlive.
    assert (this <> other) as Hne by (intros ->; congruence).
    assert (exists h', move_ctor this other h = Returns tt h') as [h' Hm].
    { unfold move_ctor, hseq at 1, construct. rewrite Ht.
      erewrite move_steps; [by eexists|done|apply lookup_insert_eq|].
      by rewrite lookup_insert_ne. }
    exists h'. split; [done|]. eapply rtc_r; [done|]. by eapply api_move_ctor.
Qed.

(** X7. Moves lose nothing of what they move: move-assigning [a] into [b]
    and then [b] back into [a] returns both times, leaves [a] with exactly
    the sequence it had, leaves [b] empty (what [b] held before is
    destroyed), and touches no other object. *)
Theorem move_there_and_back (h : gmap nat (SpxQueue T)) a b s old :
  a <> b -> h !! a = Some (idle s) -> h !! b = Some (idle old) ->
  exists h',
    (move_assign b a >> move_assign a b) h = Returns a h' /\
    h' !! a = Some (idle s) /\ h' !! b = Some (idle []) /\
    (forall c, c <> a -> c <> b -> h' !! c = h !! c).
Proof.
  intros Hne Ha Hb.
  assert (move_assign b a h =
          Returns b (<[a := idle []]> (<[b := idle s]> h))) as H1.
  { unfold move_assign, hseq at 1.
    destruct (decide (b <> a)) as [Hba|Hba]; [|by destruct Hba; intros ->].
    by rewrite (move_steps h Hba Hb Ha). }
  set (h1 := <[a := idle []]> (<[b := idle s]> h)) in *.
  assert (move_assign a b h1 =
          Returns a (<[b := idle []]> (<[a := idle s]> h1))) as H2.
  { unfold move_assign, hseq at 1.
    destruct (decide (a <> b)) as [_|Hab]; [|done].
    rewrite (move_steps h1 (dt := []) (ds := s) Hne); [done|..]; unfold h1.
    - apply lookup_insert_eq.
    - by rewrite lookup_insert_ne, lookup_insert_eq. }
  eexists. split; [|split; [|split]].
  - unfold hseq at 1. rewrite H1. exact H2.
  - by rewrite lookup_insert_ne, lookup_insert_eq.
  - apply lookup_insert_eq.
  - intros c Hca Hcb. unfold h1. by rewrite !lookup_insert_ne.
Qed.

End Further.

(** * Further properties of the interleaved runs *)

Section FurtherThreads.
Variable T : Type.
Variable d0 : list T.
Implicit Types (s : cstate T) (th : thread T) (d : list T).

Lemma wl_inside_past_lock th : wl_inside (t_code th) -> past_lock th.
Proof. unfold past_lock. by destruct (t_code th). Qed.

(** The thread that is about to touch [data_] or to release the guard is
    the holder, with the rest of a well-locked body before it. *)
Lemma cinv_in_section s rs qe t th :
  cinv d0 s rs qe -> c_pool s !! t = Some th ->
  match t_code th with Access _ _ | Unlock _ => True | _ => False end ->
  wl_inside (t_code th) /\ mutex_ (c_obj s) = Locked /\
  exists r, run (t_code th) (c_obj s) = Returns r qe.
Proof.
  intros Hinv Ht Hcode.
  destruct (cinv_thread _ Hinv Ht)
    as [Hq|(Hm & (_ & Hwl & _ & r & _ & Hrun) & _)].
  - destruct (quiet_code_cases Hq) as [(k & Hk & _)|(r & Hr & _)];
      by rewrite ?Hk, ?Hr in Hcode.
  - split; [done|]. split; [done|]. by exists r.
Qed.

Lemma tickets_cover_init : tickets_cover (cinit d0).
Proof. intros i Hi. simpl in Hi. lia. Qed.

Lemma cstep_tickets_cover a s s' rs qe :
  cinv d0 s rs qe -> tickets_cover s -> cstep a s = Some s' ->
  tickets_cover s'.
Proof.
  intros Hinv Hcov. destruct a as [t c|t]; simpl.
  - destruct (c_pool s !! t) eqn:Ht; intros [= <-]; [done|].
    intros i Hi. destruct (Hcov i Hi) as [Hin|(t0 & th0 & Ht0 & Hp & Hk)];
      [by left|right].
    exists t0, th0. split; [|done]. simpl.
    rewrite lookup_insert_ne; [done|]. intros ->. congruence.
  - destruct (c_pool s !! t) as [th|] eqn:Ht; [|by intros [= <-]].
    destruct (t_code th) as [r| |k|k|upd k] eqn:Hcode.
    + intros [= <-] i Hi. simpl in *. unfold ret_tickets. simpl.
      rewrite fmap_app. simpl.
      destruct (Hcov i Hi) as [Hin|(t0 & th0 & Ht0 & Hp & Hk)].
      { left. apply elem_of_app. by left. }
      destruct (decide (t0 = t)) as [->|Hne].
      * left. apply elem_of_app. right. apply list_elem_of_singleton.
        congruence.
      * right. exists t0, th0. by rewrite lookup_delete_ne.
    + done.
    + destruct (mutex_ (c_obj s)) eqn:Hm; simpl; intros [= <-]; [|done].
      pose proof (inv_guard Hinv) as Hg. rewrite Hm in Hg.
      destruct Hg as [_ Hall].
      destruct (quiet_code_cases (Hall _ _ Ht))
        as [(k' & Hk' & _ & Hwl)|(r & Hr & _)]; [|congruence].
      assert (k' = k) as -> by congruence.
      intros i Hi. simpl in *. rewrite length_app in Hi. simpl in Hi.
      destruct (decide (i = length (c_lin s))) as [->|Hne].
      * right. eexists t, _. split; [apply lookup_insert_eq|].
        split; [by apply wl_inside_past_lock|done].
      * destruct (Hcov i ltac:(lia)) as [Hin|(t0 & th0 & Ht0 & Hp & Hk)];
          [by left|right].
        exists t0, th0. split; [|done].
        rewrite lookup_insert_ne; [done|]. intros ->.
        unfold past_lock in Hp. assert (th0 = th) as -> by congruence.
        by rewrite Hcode in Hp.
    + destruct (cinv_in_section _ Hinv Ht) as (Hwl & Hm & _);
        [by rewrite Hcode|].
      rewrite Hm. simpl. intros [= <-] i Hi. simpl in *.
      destruct (Hcov i Hi) as [Hin|(t0 & th0 & Ht0 & Hp & Hk)]; [by left|right].
      destruct (decide (t0 = t)) as [->|Hne].
      * eexists t, _. split; [apply lookup_insert_eq|]. simpl.
        split; [|congruence]. unfold past_lock. simpl.
        rewrite Hcode in Hwl. by destruct k.
      * exists t0, th0. by rewrite lookup_insert_ne.
    + destruct (cinv_in_section _ Hinv Ht) as (Hwl & Hm & r & Hrun);
        [by rewrite Hcode|].
      rewrite Hcode in Hwl, Hrun. simpl in Hwl, Hrun.
      destruct (upd (data_ (c_obj s))) as [d|] eqn:Hupd; [|done].
      intros [= <-] i Hi. simpl in *.
      destruct (Hcov i Hi) as [Hin|(t0 & th0 & Ht0 & Hp & Hk)]; [by left|right].
      destruct (decide (t0 = t)) as [->|Hne].
      * eexists t, _. split; [apply lookup_insert_eq|]. simpl.
        split; [|congruence]. apply wl_inside_past_lock. simpl.
        apply Hwl. by eexists.
      * exists t0, th0. by rewrite lookup_insert_ne.
Qed.

Lemma cexec_invariants sched s0 s rs0 qe0 :
  cinv d0 s0 rs0 qe0 -> tickets_ok s0 -> tickets_cover s0 ->
  cexec sched s0 = Some s ->
  (exists rs qe, cinv d0 s rs qe) /\ tickets_ok s /\ tickets_cover s.
Proof.
  revert s0 rs0 qe0.
  induction sched as [|a sched IH]; intros s0 rs0 qe0 Hinv Hok Hcov; simpl.
  - intros [= <-]. by eauto.
  - destruct (cstep_cinv a Hinv) as (s1 & rs1 & qe1 & Hstep & Hinv1).
    rewrite Hstep. intros Hexec. apply (IH _ _ _ Hinv1); [| |done].
    + by eapply cstep_tickets_ok.
    + exact (cstep_tickets_cover a Hinv Hcov Hstep).
Qed.

(** One caller, any calls but [clear]: nothing is lost and nothing is made
    up. *)
Lemma calls_conserve (cs : list (opcall T)) d rs q :
  existsb (@is_clear T) cs = false ->
  run (calls cs) (idle d) = Returns rs q ->
  d ++ pushed cs ≡ₚ got rs ++ data_ q.
Proof.
  revert d rs. induction cs as [|c cs IH]; intros d rs Hcs Hrun.
  { injection Hrun as <- <-. by rewrite app_nil_r. }
  simpl in Hcs. apply orb_false_elim in Hcs as [Hc Hcs].
  destruct (run_method_cases c d) as (r & d1 & Hc1 & Hspec).
  simpl in Hrun. rewrite run_bind, Hc1, run_bind in Hrun.
  destruct (run (calls cs) (idle d1)) as [rs1 q1| |] eqn:Hrest; try done.
  injection Hrun as <- <-. specialize (IH _ _ Hcs Hrest).
  unfold got in *. rewrite bind_cons.
  destruct c as [v| | | | |]; try done.
  - destruct Hspec as [-> ->]. simpl. by rewrite <- IH, <- app_assoc.
  - destruct Hspec as [(-> & -> & ->)|(x & -> & ->)]; simpl in *;
      by rewrite IH.
  - destruct Hspec as [(-> & -> & ->)|(x & -> & ->)]; [done|]. simpl.
    rewrite <- IH, <- app_assoc. simpl. by rewrite <- Permutation_middle.
  - destruct Hspec as [-> ->]. simpl. by rewrite IH.
  - destruct Hspec as [-> ->]. simpl. by rewrite IH.
Qed.

Lemma omap_lookup_seq (rs : list (retval T)) n :
  n <= length rs -> omap (fun i => rs !! i) (seq 0 n) = take n rs.
Proof.
  induction n as [|n IH]; intros Hn; [done|].
  destruct (lookup_lt_is_Some_2 rs n) as [r Hr]; [lia|].
  rewrite seq_S, omap_app, IH by lia. simpl. rewrite Hr.
  by rewrite (take_S_r _ _ _ Hr).
Qed.

(** When every place of the serial order has its return, and no place has
    two, the values returned are the values of the serial order, in some
    order. *)
Lemma returned_values_perm (rets : list (nat * opcall T * retval T)) rs :
  (forall i c r, (i, c, r) ∈ rets -> rs !! i = Some r) ->
  NoDup ((fun e => e.1.1) <$> rets) ->
  (forall i, i < length rs -> i ∈ (fun e => e.1.1) <$> rets) ->
  (fun e => e.2) <$> rets ≡ₚ rs.
Proof.
  intros Hval Hnd Hcov.
  assert ((fun e => e.1.1) <$> rets ≡ₚ seq 0 (length rs)) as Hperm.
  { apply NoDup_Permutation; [done|apply NoDup_seq|].
    intros i. rewrite elem_of_seq. split.
    - intros ([[j c] r] & -> & Hin)%list_elem_of_fmap. simpl.
      pose proof (lookup_lt_Some _ _ _ (Hval _ _ _ Hin)). lia.
    - intros [_ Hi]. by apply Hcov. }
  assert (omap (fun i => rs !! i) ((fun e => e.1.1) <$> rets) =
          (fun e => e.2) <$> rets) as <-.
  { clear Hnd Hcov Hperm. induction rets as [|[[i c] r] rets IH]; [done|].
    simpl. rewrite (Hval i c r) by (apply elem_of_cons; by left).
    f_equal. apply IH. intros j c' r' Hin. apply (Hval j c').
    apply elem_of_cons. by right. }
  by rewrite Hperm, omap_lookup_seq, take_ge.
Qed.

(** X5. Whatever the scheduler does with any number of threads: once every
    call has returned, and if [clear] was not among the calls, the values
    the queue held at first together with the values pushed are, up to
    order, the values the [pop]s and [steal]s returned together with the
    values still in the queue.  No value is lost, none is handed out twice,
    none is made up. *)
Theorem threads_deliver_each_value_once (sched : list (action T)) s :
  cexec sched (cinit d0) = Some s ->
  c_pool s = ∅ ->
  existsb (@is_clear T) (c_lin s) = false ->
  d0 ++ pushed (c_lin s) ≡ₚ
    got ((fun e => e.2) <$> c_rets s) ++ data_ (c_obj s).
Proof.
  intros Hexec Hpool Hclear.
  destruct (cexec_invariants sched (cinv_init d0) (tickets_ok_init d0)
              tickets_cover_init Hexec) as ((rs & qe & Hinv) & Hok & Hcov).
  pose proof (inv_guard Hinv) as Hg.
  destruct (mutex_ (c_obj s)).
  2:{ destruct Hg as (t & th & Ht & _). by rewrite Hpool, lookup_empty in Ht. }
  destruct Hg as [Hobj _]. rewrite Hobj.
  rewrite (calls_conserve _ _ Hclear (inv_replay Hinv)).
  apply Permutation_app_tail. unfold got. apply bind_Permutation.
  symmetry. apply returned_values_perm.
  - intros i c r Hin. by eapply (inv_rets Hinv).
  - apply (tk_rets Hok).
  - intros i Hi. rewrite (inv_len Hinv) in Hi.
    destruct (Hcov i Hi) as [Hin|(t & th & Ht & _)]; [done|].
    by rewrite Hpool, lookup_empty in Ht.
Qed.

(** The steps of one thread, the others standing still. *)
Lemma cexec_solo_cons t n s s1 :
  cstep (Step t) s = Some s1 ->
  cexec (replicate (S n) (Step t)) s = cexec (replicate n (Step t)) s1.
Proof.
  intros Hstep.
  change (cexec (replicate (S n) (Step t)) s)
    with (match cstep (Step t) s with
          | Some s' => cexec (replicate n (Step t)) s'
          | None => None
          end).
  by rewrite Hstep.
Qed.

(** The holder of the guard, running alone, reaches the end of its call. *)
Lemma holder_finishes t (p : prog T (retval T)) :
  forall s th r qe,
    c_pool s !! t = Some th -> t_code th = p ->
    wl_inside p -> mutex_ (c_obj s) = Locked ->
    run p (c_obj s) = Returns r qe ->
    exists n s',
      cexec (replicate n (Step t)) s = Some s' /\
      c_pool s' !! t = None /\ mutex_ (c_obj s') = Unlocked /\
      (forall t', t' <> t -> c_pool s' !! t' = c_pool s !! t').
Proof.
  induction p as [a| |k IH|k IH|upd k IH]; intros s th r qe Ht Hcode Hwl Hm Hrun;
    try done.
  - (* release, then return *)
    simpl in Hwl. destruct k as [r'| | | |]; try done.
    exists 2. eexists. split; [|split; [|split]].
    + simpl. rewrite Ht, Hcode, Hm. simpl. by rewrite lookup_insert_eq.
    + simpl. apply lookup_delete_eq.
    + done.
    + intros t' Hne. simpl. by rewrite lookup_delete_ne, lookup_insert_ne.
  - (* one call on [data_], then the rest *)
    simpl in Hwl, Hrun.
    destruct (upd (data_ (c_obj s))) as [d|] eqn:Hupd; [|done].
    set (th1 := mkThread (t_call th) (k (data_ (c_obj s))) (t_holds th)
                  (t_ticket th)).
    set (s1 := mkCState (set_data d (c_obj s)) (<[t := th1]> (c_pool s))
                 (c_lin s) (c_rets s)).
    assert (cstep (Step t) s = Some s1) as Hstep.
    { simpl. by rewrite Ht, Hcode, Hupd. }
    destruct (IH (data_ (c_obj s)) s1 th1 r qe)
      as (n & s' & Hexec & Hgone & Hfree & Hoth).
    { apply lookup_insert_eq. }
    { done. }
    { apply Hwl. by eexists. }
    { done. }
    { done. }
    exists (S n), s'. split; [|split; [done|split; [done|]]].
    + by rewrite cexec_solo_cons with (s1 := s1).
    + intros t' Hne. rewrite (Hoth t' Hne). simpl.
      by rewrite lookup_insert_ne.
Qed.

(** X6. No call is left hanging.  In any state the threads can reach, a
    thread inside a call that holds the guard, or finds it free, comes to
    the end of its call in finitely many steps of its own, without any other
    thread having to move, and leaves the guard free and the other threads
    where they were. *)
Theorem call_completes_on_its_own (sched : list (action T)) s t th :
  cexec sched (cinit d0) = Some s ->
  c_pool s !! t = Some th ->
  mutex_ (c_obj s) = Unlocked \/ t_holds th = true ->
  exists n s',
    cexec (replicate n (Step t)) s = Some s' /\
    c_pool s' !! t = None /\ mutex_ (c_obj s') = Unlocked /\
    (forall t', t' <> t -> c_pool s' !! t' = c_pool s !! t').
Proof.
  intros Hexec Ht Hcan.
  destruct (cexec_invariants sched (cinv_init d0) (tickets_ok_init d0)
              tickets_cover_init Hexec) as ((rs & qe & Hinv) & _ & _).
  destruct (cinv_thread _ Hinv Ht)
    as [Hq|(Hm & (_ & Hwl & _ & r & _ & Hrun) & _)].
  2:{ by eapply holder_finishes. }
  destruct Hcan as [Hm|Hh]; [|destruct Hq; congruence].
  pose proof (inv_guard Hinv) as Hg. rewrite Hm in Hg. destruct Hg as [Hobj _].
  destruct (quiet_code_cases Hq) as [(k & Hk & Hmeth & Hwl)|(r & Hr & _)].
  - (* not started: take the guard, then go on as the holder *)
    destruct (method_returns (t_call th) (data_ (c_obj s))) as (r & d' & Hrun).
    rewrite <- (idle_eta (c_obj s) Hm), Hmeth in Hrun. simpl in Hrun.
    rewrite Hm in Hrun. simpl in Hrun.
    set (th1 := mkThread (t_call th) k true (length (c_lin s))).
    set (s1 := mkCState (set_mutex Locked (c_obj s)) (<[t := th1]> (c_pool s))
                 (c_lin s ++ [t_call th]) (c_rets s)).
    assert (cstep (Step t) s = Some s1) as Hstep.
    { simpl. by rewrite Ht, Hk, Hm. }
    assert (exists n s',
      cexec (replicate n (Step t)) s1 = Some s' /\
      c_pool s' !! t = None /\ mutex_ (c_obj s') = Unlocked /\
      (forall t', t' <> t -> c_pool s' !! t' = c_pool s1 !! t'))
      as (n & s' & Hn & Hgone & Hfree & Hoth).
    { eapply holder_finishes with (th := th1);
        [apply lookup_insert_eq|done|done|done|exact Hrun]. }
    exists (S n), s'. split; [|split; [done|split; [done|]]].
    + by rewrite cexec_solo_cons with (s1 := s1).
    + intros t' Hne. rewrite (Hoth t' Hne). simpl.
      by rewrite lookup_insert_ne.
  - (* only the return is left *)
    exists 1. eexists. split; [|split; [|split]].
    + simpl. by rewrite Ht, Hr.
    + simpl. apply lookup_delete_eq.
    + done.
    + intros t' Hne. simpl. by rewrite lookup_delete_ne.
Qed.

End FurtherThreads.

(** * The model at work, on queues of numbers *)

Example pops_after_three_pushes :
  run (push_all [1; 2; 3] ;; times 4 (pop nat)) (SpxQueue_new nat) =
  Returns [Some 1; Some 2; Some 3; None] (SpxQueue_new nat).
Proof. reflexivity. Qed.

Example steals_after_three_pushes :
  run (push_all [1; 2; 3] ;; times 4 (steal nat)) (SpxQueue_new nat) =
  Returns [Some 3; Some 2; Some 1; None] (SpxQueue_new nat).
Proof. reflexivity. Qed.

Example pops_and_steals_mixed :
  run (push_all [1; 2; 3; 4; 5] ;;
       takes nat [Front; Back; Back; Front; Front; Back])
      (SpxQueue_new nat) =
  Returns [(Front, Some 1); (Back, Some 5); (Back, Some 4);
           (Front, Some 2); (Front, Some 3); (Back, None)]
          (SpxQueue_new nat).
Proof. reflexivity. Qed.

(** A caller that finds the guard held waits. *)
Example pop_waits_for_guard : run (pop nat) (mkSpxQueue [1] Locked) = Blocks.
Proof. reflexivity. Qed.

(** Two threads race to pop the only element.  Thread 2 finds the guard
    held until thread 1 has erased the element and left: one of them gets
    the element, the other gets nothing. *)
Example two_pops_one_element :
  @c_rets nat <$> cexec [Call 1 CPop; Call 2 CPop;
                    Step 1; Step 2; Step 1; Step 2; Step 1; Step 2; Step 1;
                    Step 1; Step 2; Step 1;
                    Step 2; Step 2; Step 2; Step 2; Step 2] (cinit [7]) =
  Some [(0, CPop, ROpt (Some 7)); (1, CPop, ROpt None)].
Proof. vm_compute. reflexivity. Qed.

(** C3, on five values and six calls. *)
Lemma mixed_takes_witness :
  length [1; 2; 3; 4; 5] <= length [Front; Back; Back; Front; Front; Back] /\
  exists rs,
    run (push_all [1; 2; 3; 4; 5] ;;
         takes nat [Front; Back; Back; Front; Front; Back])
        (SpxQueue_new nat) = Returns rs (SpxQueue_new nat) /\
    delivered Front rs = take (length (delivered Front rs)) [1; 2; 3; 4; 5] /\
    delivered Back rs =
      rev (drop (length (delivered Front rs)) [1; 2; 3; 4; 5]) /\
    delivered Front rs ++ rev (delivered Back rs) = [1; 2; 3; 4; 5] /\
    Forall (fun r => is_Some r.2) (take (length [1; 2; 3; 4; 5]) rs) /\
    Forall (fun r => r.2 = None) (drop (length [1; 2; 3; 4; 5]) rs).
Proof.
  split; [simpl; lia|].
  apply (mixed_takes_deliver_each_value_once [1; 2; 3; 4; 5]
           [Front; Back; Back; Front; Front; Back]).
  simpl; lia.
Defined.

(** C4, on a new queue. *)
Lemma empty_queue_witness :
  run (pop nat) (SpxQueue_new nat) = Returns None (SpxQueue_new nat) /\
  run (steal nat) (SpxQueue_new nat) = Returns None (SpxQueue_new nat) /\
  run (empty nat) (SpxQueue_new nat) = Returns true (SpxQueue_new nat) /\
  run (size nat) (SpxQueue_new nat) = Returns 0 (SpxQueue_new nat).
Proof.
  apply (empty_queue_reports_absent (SpxQueue_new nat)); reflexivity.
Defined.

(** C5, on a queue of two. *)
Lemma push_witness :
  let q' := idle ([4; 5] ++ [6]) in
  run (push 6) (idle [4; 5]) = Returns tt q' /\
  run (size nat) (idle [4; 5]) = Returns 2 (idle [4; 5]) /\
  run (size nat) q' = Returns 3 q' /\
  run (push 6 ;; size nat) (idle [4; 5]) = Returns 3 q'.
Proof.
  apply (push_adds_one_at_back (idle [4; 5]) 6). reflexivity.
Defined.

(** C6, on a queue of two. *)
Lemma clear_witness :
  run (clear nat ;; size nat) (idle [4; 5]) = Returns 0 (idle []) /\
  (data_ (idle [4; 5]) = [] ->
   run (clear nat) (idle [4; 5]) = Returns tt (idle [4; 5])) /\
  run (clear nat ;; clear nat) (idle [4; 5]) = run (clear nat) (idle [4; 5]).
Proof.
  apply (clear_empties_and_is_idempotent (idle [4; 5])). reflexivity.
Defined.

(** C7, moving the queue at address 1 into the queue at address 2. *)
Lemma move_witness :
  let h : gmap nat (SpxQueue nat) :=
    <[2 := idle [7]]> (<[1 := idle [10; 20; 30]]> ∅) in
  (forall qb, h !! 2 = Some qb -> mutex_ qb = Unlocked ->
     exists h', move_assign 2 1 h = Returns 2 h' /\
                moved 1 2 [10; 20; 30] h h') /\
  (h !! 2 = None ->
     exists h', move_ctor 2 1 h = Returns tt h' /\
                moved 1 2 [10; 20; 30] h h').
Proof.
  intros h.
  apply (move_transfers_contents_once h (a := 1) (b := 2)
           (qa := idle [10; 20; 30])).
  - lia.
  - reflexivity.
  - reflexivity.
Defined.

(** C10, on the heap made by constructing a queue and pushing 5 into it. *)
Lemma empty_size_witness :
  let h : gmap nat (SpxQueue nat) := <[0 := idle [5]]> (<[0 := idle []]> ∅) in
  exists b n,
    on 0 (empty nat) h = Returns b h /\
    on 0 (size nat) h = Returns n h /\
    (b = true <-> n = 0).
Proof.
  intros h.
  apply (empty_agrees_with_size (h := h) 0).
  - eapply rtc_l; [eapply api_construct with (this := 0); reflexivity|].
    eapply rtc_l;
      [eapply api_call with (this := 0) (c := CPush 5); reflexivity|].
    apply rtc_refl.
  - by eexists.
Defined.


(** X4, on the heap made by constructing a queue and pushing 5 into it. *)
Lemma single_caller_witness :
  let h : gmap nat (SpxQueue nat) := <[0 := idle [5]]> (<[0 := idle []]> ∅) in
  (forall this c, is_Some (h !! this) ->
     exists r h', on this (method c) h = Returns r h' /\ reachable h') /\
  (forall this other, is_Some (h !! this) -> is_Some (h !! other) ->
     exists h', move_assign this other h = Returns this h' /\ reachable h') /\
  (forall this other, h !! this = None -> is_Some (h !! other) ->
     exists h', move_ctor this other h = Returns tt h' /\ reachable h').
Proof.
  intros h. apply (single_caller_never_waits (h := h)).
  eapply rtc_l; [eapply api_construct with (this := 0); reflexivity|].
  eapply rtc_l;
    [eapply api_call with (this := 0) (c := CPush 5); reflexivity|].
  apply rtc_refl.
Defined.

(** X5, on a queue holding 7: one thread pushes 5 while one pops and one
    steals, their statements taken in turn. *)
Lemma threads_deliver_witness :
  let sched : list (action nat) :=
    [Call 1 (CPush 5); Call 2 CPop; Call 3 CSteal] ++
    concat (replicate 12 [Step 3; Step 1; Step 2]) in
  let s := default (cinit []) (cexec sched (cinit [7])) in
  cexec sched (cinit [7]) = Some s /\
  c_pool s = ∅ /\
  existsb (@is_clear nat) (c_lin s) = false /\
  [7] ++ pushed (c_lin s) ≡ₚ
    got ((fun e => e.2) <$> c_rets s) ++ data_ (c_obj s).
Proof.
  intros sched s.
  assert (cexec sched (cinit [7]) = Some s) as Hexec by (vm_compute; reflexivity).
  assert (c_pool s = ∅) as Hpool by (vm_compute; reflexivity).
  assert (existsb (@is_clear nat) (c_lin s) = false) as Hclear
    by (vm_compute; reflexivity).
  split; [exact Hexec|]. split; [exact Hpool|]. split; [exact Hclear|].
  exact (threads_deliver_each_value_once [7] sched Hexec Hpool Hclear).
Defined.

(** X6, on a queue holding 7: thread 2 is in the middle of a [pop], holding
    the guard, while thread 1 waits to push. *)
Lemma call_completes_witness :
  let sched : list (action nat) :=
    [Call 1 (CPush 5); Call 2 CPop; Step 2; Step 1; Step 2] in
  let s := default (cinit []) (cexec sched (cinit [7])) in
  cexec sched (cinit [7]) = Some s /\
  (exists th, c_pool s !! 2 = Some th /\ t_holds th = true) /\
  exists n s',
    cexec (replicate n (Step 2)) s = Some s' /\
    c_pool s' !! 2 = None /\ mutex_ (c_obj s') = Unlocked /\
    (forall t', t' <> 2 -> c_pool s' !! t' = c_pool s !! t').
Proof.
  intros sched s.
  assert (cexec sched (cinit [7]) = Some s) as Hexec by (vm_compute; reflexivity).
  assert (exists th, c_pool s !! 2 = Some th /\ t_holds th = true)
    as (th & Hth & Hholds) by (eexists; split; reflexivity).
  split; [exact Hexec|]. split; [exists th; split; [exact Hth|exact Hholds]|].
  exact (call_completes_on_its_own [7] sched 2 Hexec Hth
           (or_intror Hholds)).
Defined.

(** X7, moving the queue at address 1 into the queue at address 2 and
    back. *)
Lemma move_there_and_back_witness :
  let h : gmap nat (SpxQueue nat) :=
    <[2 := idle [7]]> (<[1 := idle [10; 20; 30]]> ∅) in
  1 <> 2 /\
  exists h',
    (move_assign 2 1 >> move_assign 1 2) h = Returns 1 h' /\
    h' !! 1 = Some (idle [10; 20; 30]) /\ h' !! 2 = Some (idle []) /\
    (forall c, c <> 1 -> c <> 2 -> h' !! c = h !! c).
Proof.
  intros h. split; [lia|].
  apply (move_there_and_back h (a := 1) (b := 2) (s := [10; 20; 30])
           (old := [7])).
  - lia.
  - reflexivity.
  - reflexivity.
Defined.
